(** * Clox: the bytecode virtual machine of [src/vm.c]

    A shallow embedding of the virtual machine (operand stack, call frames,
    globals, upvalues, the dispatch loop) and the properties its
    specification states about it.

    Conventions of the embedding.
    - A C [double] is a primitive binary64 float; [a + b] is [PrimFloat.add].
    - A [Value*] into [vm.stack] is the offset of the slot from [vm.stack]
      (a [Z]); the cells of the operand stack are a finite map from offsets to
      values.  [vm.stack] is an array of [STACK_MAX] cells: a read or a write
      through an offset outside [0, STACK_MAX) is an access outside the
      array.  The C code never compares an offset with [STACK_MAX].
    - Heap objects are referred to by their index in the store of their kind
      ([objFunctions], [objClosures], [objUpvalues], [objNatives]); strings
      are interned, so an [ObjString*] is represented by its characters.
    - The chain [vm.openUpvalues], [->next], [->next] ... is kept as the list
      of its nodes, head first.
    - A computation whose C behaviour is not defined (an access outside
      [vm.stack], a read of a cell never written, a dangling reference, an
      ordering test between a stack slot and a heap cell) yields [None]. *)

From Stdlib Require Import Floats.PrimFloat.
From stdpp Require Import gmap strings list pretty.

Open Scope Z_scope.

(** ** Values and heap objects (value.h, object.h) *)

Inductive Obj : Type :=
  | OBJ_STRING (chars : string)
  | OBJ_FUNCTION (ref : nat)
  | OBJ_NATIVE (ref : nat)
  | OBJ_CLOSURE (ref : nat)
  | OBJ_UPVALUE (ref : nat).

Inductive Value : Type :=
  | NIL_VAL
  | BOOL_VAL (b : bool)
  | NUMBER_VAL (d : float)
  | OBJ_VAL (o : Obj).

Definition IS_NIL (v : Value) : bool :=
  match v with NIL_VAL => true | _ => false end.
Definition IS_BOOL (v : Value) : bool :=
  match v with BOOL_VAL _ => true | _ => false end.
Definition IS_NUMBER (v : Value) : bool :=
  match v with NUMBER_VAL _ => true | _ => false end.
Definition IS_OBJ (v : Value) : bool :=
  match v with OBJ_VAL _ => true | _ => false end.
Definition IS_STRING (v : Value) : bool :=
  match v with OBJ_VAL (OBJ_STRING _) => true | _ => false end.

(** The accessors are defined on their own variant only. *)
Definition AS_BOOL (v : Value) : option bool :=
  match v with BOOL_VAL b => Some b | _ => None end.
Definition AS_NUMBER (v : Value) : option float :=
  match v with NUMBER_VAL d => Some d | _ => None end.
Definition AS_STRING (v : Value) : option string :=
  match v with OBJ_VAL (OBJ_STRING s) => Some s | _ => None end.
Definition AS_FUNCTION (v : Value) : option nat :=
  match v with OBJ_VAL (OBJ_FUNCTION f) => Some f | _ => None end.

(** Modelled from the spec: [valuesEqual] of value.c is not among the
    sources.  "nil == nil; booleans and numbers compared by payload (IEEE-754
    ==); object equality is identity", strings being interned. *)
Definition valuesEqual (a b : Value) : bool :=
  match a, b with
  | NIL_VAL, NIL_VAL => true
  | BOOL_VAL x, BOOL_VAL y => Bool.eqb x y
  | NUMBER_VAL x, NUMBER_VAL y => PrimFloat.eqb x y
  | OBJ_VAL (OBJ_STRING x), OBJ_VAL (OBJ_STRING y) => bool_decide (x = y)
  | OBJ_VAL (OBJ_FUNCTION x), OBJ_VAL (OBJ_FUNCTION y) => bool_decide (x = y)
  | OBJ_VAL (OBJ_NATIVE x), OBJ_VAL (OBJ_NATIVE y) => bool_decide (x = y)
  | OBJ_VAL (OBJ_CLOSURE x), OBJ_VAL (OBJ_CLOSURE y) => bool_decide (x = y)
  | OBJ_VAL (OBJ_UPVALUE x), OBJ_VAL (OBJ_UPVALUE y) => bool_decide (x = y)
  | _, _ => false
  end.

(** ** Chunks and functions (chunk.h, object.h) *)

Record Chunk : Type := mkChunk {
  code : list Z;            (* bytes *)
  lines : list Z;
  constants : list Value
}.

Record ObjFunction : Type := mkFunction {
  arity : Z;
  upvalueCount : Z;
  chunk : Chunk;
  name : option string      (* NULL for the top-level script *)
}.

(** A [Value*]: a slot of the operand stack, or the [closed] field of an
    upvalue object. *)
Inductive ValuePtr : Type :=
  | StackPtr (slot : Z)
  | ClosedPtr (upvalue : nat).

Record ObjUpvalue : Type := mkUpvalue {
  location : ValuePtr;
  closed : Value
}.

Record ObjClosure : Type := mkClosure {
  function : nat;
  upvalues : list (option nat)     (* [None] is NULL *)
}.

(** ** The machine (vm.h) *)

Definition FRAMES_MAX : Z := 64.
(** [UINT8_COUNT] is [UINT8_MAX + 1] in common.h, which is not among the
    sources; the specification gives the bound as 64·256 slots. *)
Definition UINT8_COUNT : Z := 256.
Definition STACK_MAX : Z := FRAMES_MAX * UINT8_COUNT.

Record CallFrame : Type := mkFrame {
  closure : nat;
  ip : Z;                   (* offset from [function->chunk.code] *)
  slots : Z                 (* offset from [vm.stack] *)
}.

Inductive InterpretResult : Type :=
  | INTERPRET_OK
  | INTERPRET_COMPILE_ERROR
  | INTERPRET_RUNTIME_ERROR.

(** A native receives the argument count, the address of its first argument
    and, through that address, the operand stack. *)
Definition NativeFn : Type := Z -> Z -> gmap Z Value -> Value.

Record VM : Type := mkVM {
  frames : gmap Z CallFrame;
  frameCount : Z;
  stack : gmap Z Value;
  stackTop : Z;
  globals : gmap string Value;
  openUpvalues : list nat;
  (* vm.objects, one store per kind of object *)
  objFunctions : list ObjFunction;
  objNatives : list NativeFn;
  objClosures : list ObjClosure;
  objUpvalues : list ObjUpvalue;
  (* the two output streams *)
  stdout : list Value;      (* the values handed to printValue, one per line *)
  stderr : string
}.

Definition set_frames (x : gmap Z CallFrame) (vm : VM) : VM :=
  mkVM x (frameCount vm) (stack vm) (stackTop vm) (globals vm)
       (openUpvalues vm) (objFunctions vm) (objNatives vm) (objClosures vm)
       (objUpvalues vm) (stdout vm) (stderr vm).
Definition set_frameCount (x : Z) (vm : VM) : VM :=
  mkVM (frames vm) x (stack vm) (stackTop vm) (globals vm)
       (openUpvalues vm) (objFunctions vm) (objNatives vm) (objClosures vm)
       (objUpvalues vm) (stdout vm) (stderr vm).
Definition set_stack (x : gmap Z Value) (vm : VM) : VM :=
  mkVM (frames vm) (frameCount vm) x (stackTop vm) (globals vm)
       (openUpvalues vm) (objFunctions vm) (objNatives vm) (objClosures vm)
       (objUpvalues vm) (stdout vm) (stderr vm).
Definition set_stackTop (x : Z) (vm : VM) : VM :=
  mkVM (frames vm) (frameCount vm) (stack vm) x (globals vm)
       (openUpvalues vm) (objFunctions vm) (objNatives vm) (objClosures vm)
       (objUpvalues vm) (stdout vm) (stderr vm).
Definition set_globals (x : gmap string Value) (vm : VM) : VM :=
  mkVM (frames vm) (frameCount vm) (stack vm) (stackTop vm) x
       (openUpvalues vm) (objFunctions vm) (objNatives vm) (objClosures vm)
       (objUpvalues vm) (stdout vm) (stderr vm).
Definition set_openUpvalues (x : list nat) (vm : VM) : VM :=
  mkVM (frames vm) (frameCount vm) (stack vm) (stackTop vm) (globals vm)
       x (objFunctions vm) (objNatives vm) (objClosures vm)
       (objUpvalues vm) (stdout vm) (stderr vm).
Definition set_objNatives (x : list NativeFn) (vm : VM) : VM :=
  mkVM (frames vm) (frameCount vm) (stack vm) (stackTop vm) (globals vm)
       (openUpvalues vm) (objFunctions vm) x (objClosures vm)
       (objUpvalues vm) (stdout vm) (stderr vm).
Definition set_objClosures (x : list ObjClosure) (vm : VM) : VM :=
  mkVM (frames vm) (frameCount vm) (stack vm) (stackTop vm) (globals vm)
       (openUpvalues vm) (objFunctions vm) (objNatives vm) x
       (objUpvalues vm) (stdout vm) (stderr vm).
Definition set_objUpvalues (x : list ObjUpvalue) (vm : VM) : VM :=
  mkVM (frames vm) (frameCount vm) (stack vm) (stackTop vm) (globals vm)
       (openUpvalues vm) (objFunctions vm) (objNatives vm) (objClosures vm)
       x (stdout vm) (stderr vm).
Definition set_stdout (x : list Value) (vm : VM) : VM :=
  mkVM (frames vm) (frameCount vm) (stack vm) (stackTop vm) (globals vm)
       (openUpvalues vm) (objFunctions vm) (objNatives vm) (objClosures vm)
       (objUpvalues vm) x (stderr vm).
Definition set_stderr (x : string) (vm : VM) : VM :=
  mkVM (frames vm) (frameCount vm) (stack vm) (stackTop vm) (globals vm)
       (openUpvalues vm) (objFunctions vm) (objNatives vm) (objClosures vm)
       (objUpvalues vm) (stdout vm) x.

(** [a[i]] for a C array held as a list. *)
Definition index {A : Type} (a : list A) (i : Z) : option A :=
  if decide (0 ≤ i) then a !! Z.to_nat i else None.

Definition newline : string := String (Ascii.ascii_of_nat 10) EmptyString.

(** ** Globals (table.h)

    Modelled from the spec: the hash table of table.c is not among the
    sources.  The table is taken as the finite mapping it implements;
    [tableSet] reports whether the key is new (as the comment at its use in
    [OP_SET_GLOBAL] says), [tableGet] whether the key is present,
    [tableDelete] removes the key. *)
Definition tableGet (table : gmap string Value) (key : string) : option Value :=
  table !! key.
Definition tableSet (table : gmap string Value) (key : string) (value : Value)
  : bool * gmap string Value :=
  (bool_decide (table !! key = None), <[key := value]> table).
Definition tableDelete (table : gmap string Value) (key : string)
  : bool * gmap string Value :=
  (bool_decide (is_Some (table !! key)), delete key table).

(** ** Stack primitives *)

(** [*p] and [*p = v].  A pointer into [vm.stack] can be dereferenced when it
    designates one of the [STACK_MAX] cells of the array. *)
Definition load (p : ValuePtr) (vm : VM) : option Value :=
  match p with
  | StackPtr i => if decide (0 ≤ i < STACK_MAX) then stack vm !! i else None
  | ClosedPtr u => closed <$> objUpvalues vm !! u
  end.

Definition store (p : ValuePtr) (v : Value) (vm : VM) : option VM :=
  match p with
  | StackPtr i =>
      if decide (0 ≤ i < STACK_MAX)
      then Some (set_stack (<[i := v]> (stack vm)) vm)
      else None
  | ClosedPtr u =>
      o ← objUpvalues vm !! u;
      Some (set_objUpvalues (<[u := mkUpvalue (location o) v]> (objUpvalues vm)) vm)
  end.

Definition resetStack (vm : VM) : VM :=
  set_openUpvalues [] (set_frameCount 0 (set_stackTop 0 vm)).

(** [*vm.stackTop = value; vm.stackTop++;] with no test of [vm.stackTop]:
    at [vm.stack + STACK_MAX] the store is outside the array. *)
Definition push (value : Value) (vm : VM) : option VM :=
  vm ← store (StackPtr (stackTop vm)) value vm;
  Some (set_stackTop (stackTop vm + 1) vm).

Definition pop (vm : VM) : option (Value * VM) :=
  let vm' := set_stackTop (stackTop vm - 1) vm in
  v ← load (StackPtr (stackTop vm')) vm';
  Some (v, vm').

Definition peek (distance : Z) (vm : VM) : option Value :=
  load (StackPtr (stackTop vm - 1 - distance)) vm.

Arguments load : simpl never.
Arguments store : simpl never.
Arguments push : simpl never.
Arguments pop : simpl never.
Arguments peek : simpl never.

(** ** Error reporting *)

Definition frameFunction (fr : CallFrame) (vm : VM) : option ObjFunction :=
  cl ← objClosures vm !! closure fr;
  objFunctions vm !! function cl.

(** The loop of [runtimeError] over [i = count - 1 .. 0]. *)
Fixpoint stackTrace (count : nat) (vm : VM) : option string :=
  match count with
  | O => Some EmptyString
  | S i =>
      fr ← frames vm !! Z.of_nat i;
      fn ← frameFunction fr vm;
      let instruction := ip fr - 1 in
      line ← index (lines (chunk fn)) instruction;
      rest ← stackTrace i vm;
      Some ("[line " +:+ pretty line +:+ "] in " +:+
            match name fn with
            | None => "script" +:+ newline
            | Some chars => chars +:+ "()" +:+ newline
            end +:+ rest)
  end.

(** [message] is the format with its arguments filled in. *)
Definition runtimeError (message : string) (vm : VM) : option VM :=
  trace ← stackTrace (Z.to_nat (frameCount vm)) vm;
  Some (resetStack (set_stderr (stderr vm +:+ message +:+ newline +:+ trace) vm)).

(** ** Calls *)

Definition call (closure : nat) (argCount : Z) (vm : VM) : option (bool * VM) :=
  cl ← objClosures vm !! closure;
  fn ← objFunctions vm !! function cl;
  if decide (argCount ≠ arity fn) then
    vm' ← runtimeError ("Expected " +:+ pretty (arity fn) +:+
                        " arguments but got " +:+ pretty argCount +:+ ".") vm;
    Some (false, vm')
  else if decide (frameCount vm = FRAMES_MAX) then
    vm' ← runtimeError "Stack overflow." vm;
    Some (false, vm')
  else
    let frame := mkFrame closure 0 (stackTop vm - argCount - 1) in
    Some (true, set_frameCount (frameCount vm + 1)
                  (set_frames (<[frameCount vm := frame]> (frames vm)) vm)).

Definition callValue (callee : Value) (argCount : Z) (vm : VM)
  : option (bool * VM) :=
  match callee with
  | OBJ_VAL (OBJ_CLOSURE c) => call c argCount vm
  | OBJ_VAL (OBJ_NATIVE n) =>
      native ← objNatives vm !! n;
      let result := native argCount (stackTop vm - argCount) (stack vm) in
      vm ← push result (set_stackTop (stackTop vm - (argCount + 1)) vm);
      Some (true, vm)
  | _ =>
      vm' ← runtimeError "Can only call functions and classes." vm;
      Some (false, vm')
  end.

(** ** Upvalues *)

(** Modelled from the spec: [newUpvalue] of object.c is not among the
    sources.  It allocates an open upvalue, "a pointer into a live VM stack
    slot"; its [closed] field holds nil until the upvalue is closed. *)
Definition newUpvalue (slot : Z) (vm : VM) : nat * VM :=
  (length (objUpvalues vm),
   set_objUpvalues (objUpvalues vm ++ [mkUpvalue (StackPtr slot) NIL_VAL]) vm).

(** Modelled from the spec: [newClosure] of object.c is not among the
    sources.  "A Closure's upvalue array length equals its Function's upvalue
    count"; the array is populated afterwards, at [OP_CLOSURE]. *)
Definition newClosure (function : nat) (vm : VM) : option (nat * VM) :=
  fn ← objFunctions vm !! function;
  Some (length (objClosures vm),
        set_objClosures
          (objClosures vm ++
             [mkClosure function (replicate (Z.to_nat (upvalueCount fn)) None)])
          vm).

(** [p > local] and [p >= local] for a slot address [local]: pointers into
    different objects are not ordered. *)
Definition ptr_gt (p : ValuePtr) (local : Z) : option bool :=
  match p with
  | StackPtr i => Some (bool_decide (i > local))
  | ClosedPtr _ => None
  end.
Definition ptr_ge (p : ValuePtr) (local : Z) : option bool :=
  match p with
  | StackPtr i => Some (bool_decide (i >= local))
  | ClosedPtr _ => None
  end.
Definition ptr_eq (p : ValuePtr) (local : Z) : bool :=
  match p with
  | StackPtr i => bool_decide (i = local)
  | ClosedPtr _ => false
  end.

(** The [while] loop of [captureUpvalue]: the nodes walked past (the last of
    them is [prevUpvalue]) and the rest of the chain (its head is [upvalue]). *)
Fixpoint captureUpvalue_walk (objs : list ObjUpvalue) (local : Z)
    (chain : list nat) : option (list nat * list nat) :=
  match chain with
  | [] => Some ([], [])
  | upvalue :: next =>
      o ← objs !! upvalue;
      above ← ptr_gt (location o) local;
      if above : bool then
        '(walked, rest) ← captureUpvalue_walk objs local next;
        Some (upvalue :: walked, rest)
      else Some ([], chain)
  end.

Definition captureUpvalue (local : Z) (vm : VM) : option (nat * VM) :=
  '(walked, rest) ← captureUpvalue_walk (objUpvalues vm) local (openUpvalues vm);
  let insert_new :=
    let '(createdUpvalue, vm') := newUpvalue local vm in
    (* createdUpvalue->next = upvalue; then the head of the chain or
       prevUpvalue->next is set to createdUpvalue *)
    Some (createdUpvalue, set_openUpvalues (walked ++ createdUpvalue :: rest) vm') in
  match rest with
  | upvalue :: _ =>
      o ← objUpvalues vm !! upvalue;
      if ptr_eq (location o) local then Some (upvalue, vm) else insert_new
  | [] => insert_new
  end.

(** The [while] loop of [closeUpvalues], on the chain that starts at
    [vm.openUpvalues]. *)
Fixpoint closeUpvalues_loop (last : Z) (chain : list nat) (vm : VM) : option VM :=
  match chain with
  | [] => Some (set_openUpvalues [] vm)
  | upvalue :: next =>
      o ← objUpvalues vm !! upvalue;
      reached ← ptr_ge (location o) last;
      if reached : bool then
        v ← load (location o) vm;
        closeUpvalues_loop last next
          (set_objUpvalues
             (<[upvalue := mkUpvalue (ClosedPtr upvalue) v]> (objUpvalues vm)) vm)
      else Some (set_openUpvalues chain vm)
  end.

Definition closeUpvalues (last : Z) (vm : VM) : option VM :=
  closeUpvalues_loop last (openUpvalues vm) vm.

Definition isFalsey (value : Value) : bool :=
  IS_NIL value || (IS_BOOL value && negb (default false (AS_BOOL value))).

(** [takeString] interns the new characters, so the result is the string
    itself. *)
Definition concatenate (vm : VM) : option VM :=
  '(vb, vm) ← pop vm;
  b ← AS_STRING vb;
  '(va, vm) ← pop vm;
  a ← AS_STRING va;
  push (OBJ_VAL (OBJ_STRING (a +:+ b))) vm.

(** ** The dispatch loop *)

Inductive OpCode : Type :=
  | OP_CONSTANT | OP_NIL | OP_TRUE | OP_FALSE | OP_POP
  | OP_GET_LOCAL | OP_SET_LOCAL
  | OP_GET_GLOBAL | OP_DEFINE_GLOBAL | OP_SET_GLOBAL
  | OP_GET_UPVALUE | OP_SET_UPVALUE
  | OP_EQUAL | OP_GREATER | OP_LESS
  | OP_ADD | OP_SUBTRACT | OP_MULTIPLY | OP_DIVIDE
  | OP_NOT | OP_NEGATE | OP_PRINT
  | OP_JUMP | OP_JUMP_IF_FALSE | OP_LOOP
  | OP_CALL | OP_CLOSURE | OP_CLOSE_UPVALUE | OP_RETURN.

(** Modelled from the spec: the [OpCode] enumeration of chunk.h is not among
    the sources.  The opcodes are numbered from 0 in the order of the
    instruction table, which is the order of the cases of [run]; no property
    below depends on the numbers. *)
Definition opcodes : list OpCode :=
  [OP_CONSTANT; OP_NIL; OP_TRUE; OP_FALSE; OP_POP; OP_GET_LOCAL; OP_SET_LOCAL;
   OP_GET_GLOBAL; OP_DEFINE_GLOBAL; OP_SET_GLOBAL; OP_GET_UPVALUE;
   OP_SET_UPVALUE; OP_EQUAL; OP_GREATER; OP_LESS; OP_ADD; OP_SUBTRACT;
   OP_MULTIPLY; OP_DIVIDE; OP_NOT; OP_NEGATE; OP_PRINT; OP_JUMP;
   OP_JUMP_IF_FALSE; OP_LOOP; OP_CALL; OP_CLOSURE; OP_CLOSE_UPVALUE; OP_RETURN].

Definition decode (byte : Z) : option OpCode := index opcodes byte.

(** [frame] is the local variable of [run]: the index in [vm.frames] of the
    frame it points to. *)
Definition READ_BYTE (frame : Z) (vm : VM) : option (Z * VM) :=
  fr ← frames vm !! frame;
  fn ← frameFunction fr vm;
  byte ← index (code (chunk fn)) (ip fr);
  Some (byte, set_frames (<[frame := mkFrame (closure fr) (ip fr + 1) (slots fr)]>
                            (frames vm)) vm).

Definition READ_SHORT (frame : Z) (vm : VM) : option (Z * VM) :=
  fr ← frames vm !! frame;
  fn ← frameFunction fr vm;
  let ip' := ip fr + 2 in
  hi ← index (code (chunk fn)) (ip' - 2);
  lo ← index (code (chunk fn)) (ip' - 1);
  Some (Z.lor (Z.shiftl hi 8) lo mod 65536,
        set_frames (<[frame := mkFrame (closure fr) ip' (slots fr)]> (frames vm)) vm).

Definition READ_CONSTANT (frame : Z) (vm : VM) : option (Value * VM) :=
  '(byte, vm') ← READ_BYTE frame vm;
  fr ← frames vm' !! frame;
  fn ← frameFunction fr vm';
  constant ← index (constants (chunk fn)) byte;
  Some (constant, vm').

Definition READ_STRING (frame : Z) (vm : VM) : option (string * VM) :=
  '(constant, vm') ← READ_CONSTANT frame vm;
  chars ← AS_STRING constant;
  Some (chars, vm').

(** What one turn of the [for (;;)] loop leaves: the loop goes on with
    [frame], or [run] returns. *)
Inductive Outcome : Type :=
  | Next (frame : Z) (vm : VM)
  | Return (result : InterpretResult) (vm : VM).

(** [IS(peek(0)) && IS(peek(1))]: the second operand is looked at only when
    the first passes. *)
Definition both (IS : Value -> bool) (vm : VM) : option bool :=
  v0 ← peek 0 vm;
  if IS v0 then IS <$> peek 1 vm else Some false.

Definition BINARY_OP {A : Type} (valueType : A -> Value) (op : float -> float -> A)
    (frame : Z) (vm : VM) : option Outcome :=
  numbers ← both IS_NUMBER vm;
  if negb numbers then
    vm' ← runtimeError "Operands must be numbers." vm;
    Some (Return INTERPRET_RUNTIME_ERROR vm')
  else
    '(vb, vm) ← pop vm;
    b ← AS_NUMBER vb;
    '(va, vm) ← pop vm;
    a ← AS_NUMBER va;
    vm ← push (valueType (op a b)) vm;
    Some (Next frame vm).

Definition add_ip (offset : Z) (frame : Z) (vm : VM) : option VM :=
  fr ← frames vm !! frame;
  Some (set_frames (<[frame := mkFrame (closure fr) (ip fr + offset) (slots fr)]>
                      (frames vm)) vm).

(** The [for] loop of [OP_CLOSURE] from [i] on, [count] turns. *)
Fixpoint fillUpvalues (count : nat) (i : nat) (created : nat) (frame : Z)
    (vm : VM) : option VM :=
  match count with
  | O => Some vm
  | S count' =>
      '(isLocal, vm) ← READ_BYTE frame vm;
      '(idx, vm) ← READ_BYTE frame vm;
      fr ← frames vm !! frame;
      '(captured, vm) ←
        (if decide (isLocal ≠ 0) then
           '(u, vm') ← captureUpvalue (slots fr + idx) vm;
           Some (Some u, vm')
         else
           enclosing ← objClosures vm !! closure fr;
           u ← index (upvalues enclosing) idx;
           Some (u, vm));
      cl ← objClosures vm !! created;
      (if decide (i < length (upvalues cl))%nat then Some tt else None);;
      fillUpvalues count' (S i) created frame
        (set_objClosures
           (<[created := mkClosure (function cl) (<[i := captured]> (upvalues cl))]>
              (objClosures vm)) vm)
  end.

(** The body of the [switch] for one instruction, its opcode already read. *)
Definition exec (instruction : OpCode) (frame : Z) (vm : VM) : option Outcome :=
  match instruction with
  | OP_CONSTANT =>
      '(constant, vm) ← READ_CONSTANT frame vm;
      vm ← push constant vm;
      Some (Next frame vm)
  | OP_NIL =>
      vm ← push NIL_VAL vm;
      Some (Next frame vm)
  | OP_TRUE =>
      vm ← push (BOOL_VAL true) vm;
      Some (Next frame vm)
  | OP_FALSE =>
      vm ← push (BOOL_VAL false) vm;
      Some (Next frame vm)
  | OP_POP =>
      '(_, vm) ← pop vm;
      Some (Next frame vm)
  | OP_GET_LOCAL =>
      '(slot, vm) ← READ_BYTE frame vm;
      fr ← frames vm !! frame;
      v ← load (StackPtr (slots fr + slot)) vm;
      vm ← push v vm;
      Some (Next frame vm)
  | OP_SET_LOCAL =>
      '(slot, vm) ← READ_BYTE frame vm;
      fr ← frames vm !! frame;
      v ← peek 0 vm;
      vm ← store (StackPtr (slots fr + slot)) v vm;
      Some (Next frame vm)
  | OP_GET_GLOBAL =>
      '(name, vm) ← READ_STRING frame vm;
      match tableGet (globals vm) name with
      | None =>
          vm' ← runtimeError ("Undefined variable '" +:+ name +:+ "'.") vm;
          Some (Return INTERPRET_RUNTIME_ERROR vm')
      | Some value =>
          vm ← push value vm;
          Some (Next frame vm)
      end
  | OP_DEFINE_GLOBAL =>
      '(name, vm) ← READ_STRING frame vm;
      v ← peek 0 vm;
      let vm := set_globals (tableSet (globals vm) name v).2 vm in
      '(_, vm) ← pop vm;
      Some (Next frame vm)
  | OP_SET_GLOBAL =>
      '(name, vm) ← READ_STRING frame vm;
      v ← peek 0 vm;
      let '(isNewKey, table) := tableSet (globals vm) name v in
      let vm := set_globals table vm in
      if isNewKey then
        let vm := set_globals (tableDelete (globals vm) name).2 vm in
        vm' ← runtimeError ("Undefined variable '" +:+ name +:+ "'.") vm;
        Some (Return INTERPRET_RUNTIME_ERROR vm')
      else Some (Next frame vm)
  | OP_GET_UPVALUE =>
      '(slot, vm) ← READ_BYTE frame vm;
      fr ← frames vm !! frame;
      cl ← objClosures vm !! closure fr;
      u ← mjoin (index (upvalues cl) slot);
      o ← objUpvalues vm !! u;
      v ← load (location o) vm;
      vm ← push v vm;
      Some (Next frame vm)
  | OP_SET_UPVALUE =>
      '(slot, vm) ← READ_BYTE frame vm;
      fr ← frames vm !! frame;
      cl ← objClosures vm !! closure fr;
      u ← mjoin (index (upvalues cl) slot);
      o ← objUpvalues vm !! u;
      v ← peek 0 vm;
      vm ← store (location o) v vm;
      Some (Next frame vm)
  | OP_EQUAL =>
      '(b, vm) ← pop vm;
      '(a, vm) ← pop vm;
      vm ← push (BOOL_VAL (valuesEqual a b)) vm;
      Some (Next frame vm)
  | OP_GREATER => BINARY_OP BOOL_VAL (fun a b => PrimFloat.ltb b a) frame vm
  | OP_LESS => BINARY_OP BOOL_VAL (fun a b => PrimFloat.ltb a b) frame vm
  | OP_ADD =>
      strings ← both IS_STRING vm;
      if strings : bool then
        vm ← concatenate vm;
        Some (Next frame vm)
      else
      numbers ← both IS_NUMBER vm;
      if numbers : bool then
        '(vb, vm) ← pop vm;
        b ← AS_NUMBER vb;
        '(va, vm) ← pop vm;
        a ← AS_NUMBER va;
        vm ← push (NUMBER_VAL (PrimFloat.add a b)) vm;
        Some (Next frame vm)
      else
        vm' ← runtimeError "Operands must be two numbers or two strings." vm;
        Some (Return INTERPRET_COMPILE_ERROR vm')
  | OP_SUBTRACT => BINARY_OP NUMBER_VAL PrimFloat.sub frame vm
  | OP_MULTIPLY => BINARY_OP NUMBER_VAL PrimFloat.mul frame vm
  | OP_DIVIDE => BINARY_OP NUMBER_VAL PrimFloat.div frame vm
  | OP_NOT =>
      '(v, vm) ← pop vm;
      vm ← push (BOOL_VAL (isFalsey v)) vm;
      Some (Next frame vm)
  | OP_NEGATE =>
      v0 ← peek 0 vm;
      if negb (IS_NUMBER v0) then
        vm' ← runtimeError "Operand must be a number." vm;
        Some (Return INTERPRET_RUNTIME_ERROR vm')
      else
        '(v, vm) ← pop vm;
        d ← AS_NUMBER v;
        vm ← push (NUMBER_VAL (PrimFloat.opp d)) vm;
        Some (Next frame vm)
  | OP_PRINT =>
      '(v, vm) ← pop vm;
      Some (Next frame (set_stdout (stdout vm ++ [v]) vm))
  | OP_JUMP =>
      '(offset, vm) ← READ_SHORT frame vm;
      vm ← add_ip offset frame vm;
      Some (Next frame vm)
  | OP_JUMP_IF_FALSE =>
      '(offset, vm) ← READ_SHORT frame vm;
      v ← peek 0 vm;
      if isFalsey v then
        vm ← add_ip offset frame vm;
        Some (Next frame vm)
      else Some (Next frame vm)
  | OP_LOOP =>
      '(offset, vm) ← READ_SHORT frame vm;
      vm ← add_ip (- offset) frame vm;
      Some (Next frame vm)
  | OP_CALL =>
      '(argCount, vm) ← READ_BYTE frame vm;
      callee ← peek argCount vm;
      '(ok, vm) ← callValue callee argCount vm;
      if ok : bool then Some (Next (frameCount vm - 1) vm)
      else Some (Return INTERPRET_RUNTIME_ERROR vm)
  | OP_CLOSURE =>
      '(constant, vm) ← READ_CONSTANT frame vm;
      funtion ← AS_FUNCTION constant;
      '(created, vm) ← newClosure funtion vm;
      vm ← push (OBJ_VAL (OBJ_CLOSURE created)) vm;
      cl ← objClosures vm !! created;
      vm ← fillUpvalues (length (upvalues cl)) 0 created frame vm;
      Some (Next frame vm)
  | OP_CLOSE_UPVALUE =>
      vm ← closeUpvalues (stackTop vm - 1) vm;
      '(_, vm) ← pop vm;
      Some (Next frame vm)
  | OP_RETURN =>
      '(result, vm) ← pop vm;
      fr ← frames vm !! frame;
      vm ← closeUpvalues (slots fr) vm;
      let vm := set_frameCount (frameCount vm - 1) vm in
      if decide (frameCount vm = 0) then
        '(_, vm) ← pop vm;
        Some (Return INTERPRET_OK vm)
      else
        let vm := set_stackTop (slots fr) vm in
        vm ← push result vm;
        Some (Next (frameCount vm - 1) vm)
  end.

(** How a bounded number of turns of the loop ends. *)
Inductive Exit : Type :=
  | Exited (result : InterpretResult) (vm : VM)
  | Undefined
  | OutOfFuel.

Fixpoint run_loop (fuel : nat) (frame : Z) (vm : VM) : Exit :=
  match fuel with
  | O => OutOfFuel
  | S fuel' =>
      match READ_BYTE frame vm with
      | None => Undefined
      | Some (byte, vm) =>
          match decode byte with
          | None => run_loop fuel' frame vm      (* no case of the switch *)
          | Some instruction =>
              match exec instruction frame vm with
              | None => Undefined
              | Some (Next frame' vm') => run_loop fuel' frame' vm'
              | Some (Return result vm') => Exited result vm'
              end
          end
      end
  end.

Definition run (fuel : nat) (vm : VM) : Exit :=
  run_loop fuel (frameCount vm - 1) vm.

(** [interpret], from the result of [compile] on ([None] is NULL; compiler.c
    is not among the sources). *)
Definition interpret (fuel : nat) (compiled : option nat) (vm : VM) : Exit :=
  match compiled with
  | None => Exited INTERPRET_COMPILE_ERROR vm
  | Some function =>
      let called :=
        vm ← push (OBJ_VAL (OBJ_FUNCTION function)) vm;
        '(closure, vm) ← newClosure function vm;
        '(_, vm) ← pop vm;
        vm ← push (OBJ_VAL (OBJ_CLOSURE closure)) vm;
        '(_, vm) ← call closure 0 vm;
        Some vm in
      match called with
      | None => Undefined
      | Some vm => run fuel vm
      end
  end.

(** ** The invariant of the open-upvalue list *)

(** The stack slot an open upvalue points to. *)
Definition openSlot (objs : list ObjUpvalue) (u : nat) : option Z :=
  o ← objs !! u;
  match location o with
  | StackPtr a => Some a
  | ClosedPtr _ => None
  end.

(** The nodes of [chain] are open and point, in order, to [addrs]. *)
Definition pointsTo (objs : list ObjUpvalue) (chain : list nat) (addrs : list Z)
  : Prop :=
  Forall2 (λ u a, openSlot objs u = Some a) chain addrs.

(** Strictly descending: every address is above all those after it. *)
Fixpoint descending (addrs : list Z) : Prop :=
  match addrs with
  | [] => True
  | a :: rest => Forall (λ b, b < a) rest ∧ descending rest
  end.

(** The nodes that point below an address. *)
Definition below (objs : list ObjUpvalue) (local : Z) (u : nat) : bool :=
  match openSlot objs u with
  | Some a => bool_decide (a < local)
  | None => false
  end.

(** ** Start-up *)

(** [now] is what [(double)clock() / CLOCKS_PER_SEC] reads at the call. *)
Definition clockNative (now : float) : NativeFn :=
  fun argCount args stack => NUMBER_VAL now.

(** Modelled from the spec: [newNative] of object.c is not among the
    sources; it allocates the object that holds the host function. *)
Definition newNative (function : NativeFn) (vm : VM) : nat * VM :=
  (length (objNatives vm), set_objNatives (objNatives vm ++ [function]) vm).

Definition defineNative (name : string) (function : NativeFn) (vm : VM)
  : option VM :=
  vm ← push (OBJ_VAL (OBJ_STRING name)) vm;
  let '(native, vm) := newNative function vm in
  vm ← push (OBJ_VAL (OBJ_NATIVE native)) vm;
  key ← load (StackPtr 0) vm ≫= AS_STRING;
  value ← load (StackPtr 1) vm;
  let vm := set_globals (tableSet (globals vm) key value).2 vm in
  '(_, vm) ← pop vm;
  '(_, vm) ← pop vm;
  Some vm.

(** The machine before [initVM], with the functions the compiler will have
    produced already in the object store. *)
Definition blankVM (compiled : list ObjFunction) : VM :=
  mkVM ∅ 0 ∅ 0 ∅ [] compiled [] [] [] [] EmptyString.

Definition initVM (now : float) (vm : VM) : option VM :=
  let vm := resetStack vm in
  let vm := set_globals ∅ vm in
  defineNative "clock" (clockNative now) vm.

(** ** Sample programs, assembled by hand *)

Global Instance OpCode_eq_dec : EqDecision OpCode.
Proof. solve_decision. Defined.

Definition byte_of (op : OpCode) : Z :=
  match list_find (λ x, x = op) opcodes with
  | Some (i, _) => Z.of_nat i
  | None => 255
  end.

Definition assemble (program : list (OpCode + Z)) : list Z :=
  (λ x, match x with inl op => byte_of op | inr operand => operand end) <$> program.

Definition script (line : Z) (program : list (OpCode + Z)) (pool : list Value)
  : ObjFunction :=
  mkFunction 0 0
    (mkChunk (assemble program) (replicate (length program) line) pool) None.

Definition started (fns : list ObjFunction) : VM :=
  default (blankVM fns) (initVM 0%float (blankVM fns)).

(** [print 1 + 2;] *)
Definition print_sum : ObjFunction :=
  script 1 [inl OP_CONSTANT; inr 0; inl OP_CONSTANT; inr 1; inl OP_ADD;
            inl OP_PRINT; inl OP_NIL; inl OP_RETURN]
         [NUMBER_VAL 1; NUMBER_VAL 2].

(** [print 1 + "a";] *)
Definition print_mixed : ObjFunction :=
  script 1 [inl OP_CONSTANT; inr 0; inl OP_CONSTANT; inr 1; inl OP_ADD;
            inl OP_PRINT; inl OP_NIL; inl OP_RETURN]
         [NUMBER_VAL 1; OBJ_VAL (OBJ_STRING "a")].

Definition exit_result (e : Exit) : option InterpretResult :=
  match e with Exited r _ => Some r | _ => None end.
Definition exit_vm (e : Exit) : option VM :=
  match e with Exited _ vm => Some vm | _ => None end.

(** [fun make() { var x = 0; fun inc() { x = x + 1; return x; } return inc; }
     var c = make(); print c(); print c(); print c();]
    with the script at index 0 of the object store, [make] at 1, [inc] at 2. *)
Definition counter_inc : ObjFunction :=
  mkFunction 0 1
    (mkChunk (assemble [inl OP_GET_UPVALUE; inr 0; inl OP_CONSTANT; inr 0;
                        inl OP_ADD; inl OP_SET_UPVALUE; inr 0; inl OP_POP;
                        inl OP_GET_UPVALUE; inr 0; inl OP_RETURN;
                        inl OP_NIL; inl OP_RETURN])
             (replicate 13 1) [NUMBER_VAL 1])
    (Some "inc").

Definition counter_make : ObjFunction :=
  mkFunction 0 0
    (mkChunk (assemble [inl OP_CONSTANT; inr 0;
                        inl OP_CLOSURE; inr 1; inr 1; inr 1;
                        inl OP_GET_LOCAL; inr 2; inl OP_RETURN;
                        inl OP_NIL; inl OP_RETURN])
             (replicate 11 1) [NUMBER_VAL 0; OBJ_VAL (OBJ_FUNCTION 2)])
    (Some "make").

Definition counter_script : ObjFunction :=
  script 2 [inl OP_CLOSURE; inr 1; inl OP_DEFINE_GLOBAL; inr 0;
            inl OP_GET_GLOBAL; inr 0; inl OP_CALL; inr 0;
            inl OP_DEFINE_GLOBAL; inr 2;
            inl OP_GET_GLOBAL; inr 2; inl OP_CALL; inr 0; inl OP_PRINT;
            inl OP_GET_GLOBAL; inr 2; inl OP_CALL; inr 0; inl OP_PRINT;
            inl OP_GET_GLOBAL; inr 2; inl OP_CALL; inr 0; inl OP_PRINT;
            inl OP_NIL; inl OP_RETURN]
         [OBJ_VAL (OBJ_STRING "make"); OBJ_VAL (OBJ_FUNCTION 1);
          OBJ_VAL (OBJ_STRING "c")].

Definition counter : list ObjFunction :=
  [counter_script; counter_make; counter_inc].

(** [print undefined;] *)
Definition print_undefined : ObjFunction :=
  script 1 [inl OP_GET_GLOBAL; inr 0; inl OP_PRINT; inl OP_NIL; inl OP_RETURN]
         [OBJ_VAL (OBJ_STRING "undefined")].

(** [undefined = 1;] *)
Definition assign_undefined : ObjFunction :=
  script 1 [inl OP_CONSTANT; inr 1; inl OP_SET_GLOBAL; inr 0; inl OP_POP;
            inl OP_NIL; inl OP_RETURN]
         [OBJ_VAL (OBJ_STRING "undefined"); NUMBER_VAL 1].

(** [var clock = 1;] ([clock] is bound by [initVM]) *)
Definition redefine_clock : ObjFunction :=
  script 1 [inl OP_CONSTANT; inr 1; inl OP_DEFINE_GLOBAL; inr 0;
            inl OP_NIL; inl OP_RETURN]
         [OBJ_VAL (OBJ_STRING "clock"); NUMBER_VAL 1].

(** [print !nil;] *)
Definition print_not_nil : ObjFunction :=
  script 1 [inl OP_NIL; inl OP_NOT; inl OP_PRINT; inl OP_NIL; inl OP_RETURN] [].

(** [fun f(a, b) { return a; }] *)
Definition two_params : ObjFunction :=
  mkFunction 2 0
    (mkChunk (assemble [inl OP_GET_LOCAL; inr 1; inl OP_RETURN;
                        inl OP_NIL; inl OP_RETURN])
             (replicate 5 1) [])
    (Some "f").

(** [fun f(a, b) { return a; } print f(1);] *)
Definition call_one_arg : list ObjFunction :=
  [script 2 [inl OP_CLOSURE; inr 1; inl OP_DEFINE_GLOBAL; inr 0;
             inl OP_GET_GLOBAL; inr 0; inl OP_CONSTANT; inr 2;
             inl OP_CALL; inr 1; inl OP_PRINT; inl OP_NIL; inl OP_RETURN]
          [OBJ_VAL (OBJ_STRING "f"); OBJ_VAL (OBJ_FUNCTION 1); NUMBER_VAL 1];
   two_params].

(** [fun f(a, b) { return a; } print f(1, 1);] *)
Definition call_two_args : list ObjFunction :=
  [script 2 [inl OP_CLOSURE; inr 1; inl OP_DEFINE_GLOBAL; inr 0;
             inl OP_GET_GLOBAL; inr 0; inl OP_CONSTANT; inr 2;
             inl OP_CONSTANT; inr 2;
             inl OP_CALL; inr 2; inl OP_PRINT; inl OP_NIL; inl OP_RETURN]
          [OBJ_VAL (OBJ_STRING "f"); OBJ_VAL (OBJ_FUNCTION 1); NUMBER_VAL 1];
   two_params].

(** [fun f() { f(); } f();] *)
Definition call_forever : list ObjFunction :=
  [script 2 [inl OP_CLOSURE; inr 1; inl OP_DEFINE_GLOBAL; inr 0;
             inl OP_GET_GLOBAL; inr 0; inl OP_CALL; inr 0; inl OP_POP;
             inl OP_NIL; inl OP_RETURN]
          [OBJ_VAL (OBJ_STRING "f"); OBJ_VAL (OBJ_FUNCTION 1)];
   mkFunction 0 0
     (mkChunk (assemble [inl OP_GET_GLOBAL; inr 0; inl OP_CALL; inr 0;
                         inl OP_POP; inl OP_NIL; inl OP_RETURN])
              (replicate 7 1) [OBJ_VAL (OBJ_STRING "f")])
     (Some "f")].

(** [clock();] *)
Definition call_clock : list ObjFunction :=
  [script 1 [inl OP_GET_GLOBAL; inr 0; inl OP_CALL; inr 0; inl OP_POP;
             inl OP_NIL; inl OP_RETURN]
          [OBJ_VAL (OBJ_STRING "clock")]].

(** [nil();] *)
Definition call_nil : list ObjFunction :=
  [script 1 [inl OP_NIL; inl OP_CALL; inr 0; inl OP_POP;
             inl OP_NIL; inl OP_RETURN] []].



(** [fun f() { return "a" + 1; }] on line 1, [f();] on line 2 *)
Definition add_in_function : list ObjFunction :=
  [script 2 [inl OP_CLOSURE; inr 1; inl OP_DEFINE_GLOBAL; inr 0;
             inl OP_GET_GLOBAL; inr 0; inl OP_CALL; inr 0; inl OP_POP;
             inl OP_NIL; inl OP_RETURN]
          [OBJ_VAL (OBJ_STRING "f"); OBJ_VAL (OBJ_FUNCTION 1)];
   mkFunction 0 0
     (mkChunk (assemble [inl OP_CONSTANT; inr 0; inl OP_CONSTANT; inr 1;
                         inl OP_ADD; inl OP_RETURN; inl OP_NIL; inl OP_RETURN])
              (replicate 8 1) [OBJ_VAL (OBJ_STRING "a"); NUMBER_VAL 1])
     (Some "f")].

(** The machine as [interpret] hands it to [run]. *)
Definition entered (fns : list ObjFunction) : option VM :=
  vm ← push (OBJ_VAL (OBJ_FUNCTION 0)) (started fns);
  '(closure, vm) ← newClosure 0 vm;
  '(_, vm) ← pop vm;
  vm ← push (OBJ_VAL (OBJ_CLOSURE closure)) vm;
  '(_, vm) ← call closure 0 vm;
  Some vm.

(** [n] turns of the loop of [run], none of which returns. *)
Fixpoint turns (n : nat) (frame : Z) (vm : VM) : option (Z * VM) :=
  match n with
  | O => Some (frame, vm)
  | S n' =>
      '(byte, vm) ← READ_BYTE frame vm;
      instruction ← decode byte;
      match exec instruction frame vm with
      | Some (Next frame' vm') => turns n' frame' vm'
      | _ => None
      end
  end.

(** The machine of [fns] after [n] instructions and the fetch of the next
    opcode: the state on which the body of the [switch] works. *)
Definition fetched (n : nat) (fns : list ObjFunction) : option (Z * VM) :=
  vm ← entered fns;
  '(frame, vm) ← turns n (frameCount vm - 1) vm;
  '(_, vm) ← READ_BYTE frame vm;
  Some (frame, vm).

Definition fetched_frame (n : nat) (fns : list ObjFunction) : Z :=
  default 0 (fst <$> fetched n fns).
Definition fetched_vm (n : nat) (fns : list ObjFunction) : VM :=
  default (blankVM fns) (snd <$> fetched n fns).

(** The machine once the one-byte operand of the instruction is read. *)
Definition operand_read (frame : Z) (vm : VM) : VM :=
  default vm (snd <$> READ_BYTE frame vm).


(** ** Further notions used by the properties *)

(** The machine an instruction leaves, whether the loop goes on or not. *)
Definition outcome_vm (o : Outcome) : VM :=
  match o with
  | Next _ vm => vm
  | Return _ vm => vm
  end.

(** The messages [runtimeError] is called with in the case of an
    instruction, in [run] or, under [OP_CALL], in [callValue] and [call],
    the arguments of the format filled in. *)
Definition raises (instruction : OpCode) (message : string) : Prop :=
  match instruction with
  | OP_GET_GLOBAL | OP_SET_GLOBAL =>
      ∃ name, message = "Undefined variable '" +:+ name +:+ "'."
  | OP_GREATER | OP_LESS | OP_SUBTRACT | OP_MULTIPLY | OP_DIVIDE =>
      message = "Operands must be numbers."
  | OP_ADD => message = "Operands must be two numbers or two strings."
  | OP_NEGATE => message = "Operand must be a number."
  | OP_CALL =>
      message = "Can only call functions and classes." ∨
      message = "Stack overflow." ∨
      ∃ arity argCount : Z,
        message = "Expected " +:+ pretty arity +:+ " arguments but got " +:+
                  pretty argCount +:+ "."
  | _ => False
  end.

(** The open-upvalue list is in order: its nodes are open and point to
    strictly descending stack slots. *)
Definition openUpvaluesOrdered (vm : VM) : Prop :=
  ∃ addrs, pointsTo (objUpvalues vm) (openUpvalues vm) addrs ∧ descending addrs.

(** [run] is at work: between 1 and [FRAMES_MAX] frames are active and its
    variable [frame] designates the topmost. *)
Definition running (frame : Z) (vm : VM) : Prop :=
  1 ≤ frameCount vm ≤ FRAMES_MAX ∧ frame = frameCount vm - 1.

(** What [OP_GET_UPVALUE] reads through an upvalue: [*upvalue->location]. *)
Definition deref (u : nat) (vm : VM) : option Value :=
  o ← objUpvalues vm !! u;
  load (location o) vm.

(** The machine of [fns] as [interpret] hands it to [run]. *)
Definition entered_vm (fns : list ObjFunction) : VM :=
  default (blankVM fns) (entered fns).

(** [print !nil;] with a jump over the print: the operand bytes 1 and 2 make
    the offset 258. *)
Definition jump_sample : ObjFunction :=
  script 1 [inl OP_FALSE; inl OP_JUMP_IF_FALSE; inr 1; inr 2; inl OP_POP;
            inl OP_NIL; inl OP_RETURN] [].

(** [clock = 1;] ([clock] is bound by [initVM]) *)
Definition assign_clock : ObjFunction :=
  script 1 [inl OP_CONSTANT; inr 1; inl OP_SET_GLOBAL; inr 0; inl OP_POP;
            inl OP_NIL; inl OP_RETURN]
         [OBJ_VAL (OBJ_STRING "clock"); NUMBER_VAL 1].

(** * Properties *)

Ltac evaluated := vm_compute; reflexivity.
Ltac in_range := vm_compute; split; [discriminate | reflexivity].

(** ** The operand stack, an array of [STACK_MAX] cells *)

Lemma load_stack i vm v :
  load (StackPtr i) vm = Some v ↔ 0 ≤ i < STACK_MAX ∧ stack vm !! i = Some v.
Proof.
  unfold load. case_decide; [tauto|]. split; [done|]. by intros [? _].
Qed.

Lemma load_cell i vm :
  0 ≤ i < STACK_MAX → load (StackPtr i) vm = stack vm !! i.
Proof. intros Hi. unfold load. by rewrite decide_True. Qed.

Lemma STACK_MAX_cells : STACK_MAX = 16384.
Proof. reflexivity. Qed.

Lemma store_stack i v vm :
  0 ≤ i < STACK_MAX →
  store (StackPtr i) v vm = Some (set_stack (<[i := v]> (stack vm)) vm).
Proof. intros Hi. unfold store. by rewrite decide_True. Qed.

Lemma push_Some value vm :
  0 ≤ stackTop vm < STACK_MAX →
  push value vm =
    Some (set_stackTop (stackTop vm + 1)
            (set_stack (<[stackTop vm := value]> (stack vm)) vm)).
Proof. intros Htop. unfold push. by rewrite store_stack. Qed.

Lemma push_None value vm :
  ¬ (0 ≤ stackTop vm < STACK_MAX) → push value vm = None.
Proof. intros Htop. unfold push, store. by rewrite decide_False. Qed.

Lemma push_shape value vm vm' :
  push value vm = Some vm' →
  0 ≤ stackTop vm < STACK_MAX ∧
  vm' = set_stackTop (stackTop vm + 1)
          (set_stack (<[stackTop vm := value]> (stack vm)) vm).
Proof.
  intros H. destruct (decide (0 ≤ stackTop vm < STACK_MAX)) as [Htop|Htop].
  - rewrite push_Some in H by done. by injection H as <-.
  - by rewrite push_None in H.
Qed.

Lemma peek_shape distance vm v :
  peek distance vm = Some v ↔
  0 ≤ stackTop vm - 1 - distance < STACK_MAX ∧
  stack vm !! (stackTop vm - 1 - distance) = Some v.
Proof. apply load_stack. Qed.

Lemma pop_shape vm v vm' :
  pop vm = Some (v, vm') →
  0 ≤ stackTop vm - 1 < STACK_MAX ∧
  stack vm !! (stackTop vm - 1) = Some v ∧
  vm' = set_stackTop (stackTop vm - 1) vm.
Proof.
  unfold pop. cbn [stackTop set_stackTop]. intros H.
  destruct (load _ _) as [v'|] eqn:E; simpl in H; [|done].
  apply load_stack in E as [Hi E]. by injection H as -> <-.
Qed.

Lemma peek_0_pop v vm :
  peek 0 vm = Some v → pop vm = Some (v, set_stackTop (stackTop vm - 1) vm).
Proof.
  unfold peek, pop. cbn [stackTop set_stackTop].
  replace (stackTop vm - 1 - 0) with (stackTop vm - 1) by lia.
  intros H.
  change (load (StackPtr (stackTop vm - 1)) (set_stackTop (stackTop vm - 1) vm))
    with (load (StackPtr (stackTop vm - 1)) vm).
  by rewrite H.
Qed.

Lemma peek_1_pop v vm :
  peek 1 vm = Some v → peek 0 (set_stackTop (stackTop vm - 1) vm) = Some v.
Proof.
  unfold peek. cbn [stackTop set_stackTop].
  replace (stackTop vm - 1 - 1 - 0) with (stackTop vm - 1 - 1) by lia.
  done.
Qed.

(** A value that can be popped leaves room for a push. *)
Lemma pop_then_push v vm vm1 value :
  pop vm = Some (v, vm1) →
  push value vm1 =
    Some (set_stack (<[stackTop vm - 1 := value]> (stack vm)) vm).
Proof.
  intros (Htop & _ & ->)%pop_shape.
  rewrite push_Some by done. cbn [stackTop set_stackTop]. f_equal.
  unfold set_stackTop, set_stack; simpl. destruct vm; simpl. f_equal. lia.
Qed.

(** ** The model runs the programs of the specification's scenarios *)

Example print_sum_runs :
  let e := interpret 10 (Some 0%nat) (started [print_sum]) in
  exit_result e = Some INTERPRET_OK ∧
  (stdout <$> exit_vm e) = Some [NUMBER_VAL 3] ∧
  (stackTop <$> exit_vm e) = Some 0.
Proof. vm_compute. auto. Qed.

Example counter_runs :
  let e := interpret 100 (Some 0%nat) (started counter) in
  exit_result e = Some INTERPRET_OK ∧
  (stdout <$> exit_vm e) = Some [NUMBER_VAL 1; NUMBER_VAL 2; NUMBER_VAL 3] ∧
  (openUpvalues <$> exit_vm e) = Some [] ∧
  (objUpvalues <$> exit_vm e) = Some [mkUpvalue (ClosedPtr 0) (NUMBER_VAL 3)].
Proof. vm_compute. auto. Qed.

(** ** What the operand macros leave untouched *)

Lemma READ_BYTE_frames frame vm byte vm' :
  READ_BYTE frame vm = Some (byte, vm') →
  ∃ fs, vm' = set_frames fs vm.
Proof.
  unfold READ_BYTE. intros H.
  destruct (frames vm !! frame) as [fr|]; simpl in H; [|done].
  destruct (frameFunction fr vm) as [fn|]; simpl in H; [|done].
  destruct (index (code (chunk fn)) (ip fr)); simpl in H; [|done].
  injection H as _ <-. eauto.
Qed.

Lemma READ_CONSTANT_frames frame vm constant vm' :
  READ_CONSTANT frame vm = Some (constant, vm') →
  ∃ fs, vm' = set_frames fs vm.
Proof.
  unfold READ_CONSTANT. intros H.
  destruct (READ_BYTE frame vm) as [[b vm1]|] eqn:E; simpl in H; [|done].
  destruct (frames vm1 !! frame) as [fr|]; simpl in H; [|done].
  destruct (frameFunction fr vm1) as [fn|]; simpl in H; [|done].
  destruct (index (constants (chunk fn)) b); simpl in H; [|done].
  injection H as _ <-. eauto using READ_BYTE_frames.
Qed.

Lemma READ_STRING_frames frame vm chars vm' :
  READ_STRING frame vm = Some (chars, vm') →
  ∃ fs, vm' = set_frames fs vm.
Proof.
  unfold READ_STRING. intros H.
  destruct (READ_CONSTANT frame vm) as [[c vm1]|] eqn:E; simpl in H; [|done].
  destruct (AS_STRING c); simpl in H; [|done].
  injection H as _ <-. eauto using READ_CONSTANT_frames.
Qed.

(** ** Error reporting *)

Lemma frameFunction_only_objects fr vm vm' :
  objClosures vm' = objClosures vm → objFunctions vm' = objFunctions vm →
  frameFunction fr vm' = frameFunction fr vm.
Proof. unfold frameFunction. by intros -> ->. Qed.

Lemma stackTrace_only_frames n vm vm' :
  frames vm' = frames vm → objClosures vm' = objClosures vm →
  objFunctions vm' = objFunctions vm →
  stackTrace n vm' = stackTrace n vm.
Proof.
  intros Hf Hc Ho. induction n as [|n IH]; simpl; [done|].
  rewrite Hf, IH. destruct (frames vm !! Z.of_nat n); simpl; [|done].
  by rewrite (frameFunction_only_objects _ vm vm').
Qed.

Lemma runtimeError_traced message vm trace :
  stackTrace (Z.to_nat (frameCount vm)) vm = Some trace →
  runtimeError message vm =
    Some (resetStack (set_stderr (stderr vm +:+ message +:+ newline +:+ trace) vm)).
Proof. unfold runtimeError. by intros ->. Qed.

(** ** Truthiness *)

Lemma isFalsey_iff (v : Value) :
  isFalsey v = true ↔ v = NIL_VAL ∨ v = BOOL_VAL false.
Proof.
  destruct v as [|[]| |]; simpl; split; try tauto; try discriminate;
    intros [H|H]; discriminate.
Qed.

(** C5: a value is falsey iff it is nil or false; [OP_NOT] replaces the top
    of the stack by [true] for exactly those two values and by [false] for
    every other one, the number 0 and the empty string among them; two
    [OP_NOT] in a row leave [true] iff the value is neither nil nor false. *)
Theorem falsey_is_nil_or_false (v : Value) (frame : Z) (vm vm1 : VM) :
  pop vm = Some (v, vm1) →
  (isFalsey v = true ↔ v = NIL_VAL ∨ v = BOOL_VAL false) ∧
  isFalsey (NUMBER_VAL 0) = false ∧
  isFalsey (OBJ_VAL (OBJ_STRING "")) = false ∧
  ∃ vm2 vm3,
    push (BOOL_VAL (isFalsey v)) vm1 = Some vm2 ∧
    exec OP_NOT frame vm = Some (Next frame vm2) ∧
    peek 0 vm2 = Some (BOOL_VAL (isFalsey v)) ∧
    exec OP_NOT frame vm2 = Some (Next frame vm3) ∧
    stackTop vm3 = stackTop vm ∧
    peek 0 vm3 = Some (BOOL_VAL (negb (isFalsey v))) ∧
    (negb (isFalsey v) = true ↔ v ≠ NIL_VAL ∧ v ≠ BOOL_VAL false).
Proof.
  intros Hpop.
  split; [apply isFalsey_iff|]. do 2 (split; [reflexivity|]).
  pose proof (pop_then_push _ _ _ (BOOL_VAL (isFalsey v)) Hpop) as Hpush.
  pose proof Hpop as (Htop & _ & _)%pop_shape.
  set (vm2 := set_stack (<[stackTop vm - 1 := BOOL_VAL (isFalsey v)]> (stack vm)) vm)
    in *.
  assert (Hpeek2 : peek 0 vm2 = Some (BOOL_VAL (isFalsey v))).
  { apply peek_shape. cbn [stackTop stack vm2 set_stack].
    replace (stackTop vm - 1 - 0) with (stackTop vm - 1) by lia.
    split; [done|]. apply lookup_insert_eq. }
  pose proof (peek_0_pop _ _ Hpeek2) as Hpop2.
  pose proof (pop_then_push _ _ _ (BOOL_VAL (isFalsey (BOOL_VAL (isFalsey v)))) Hpop2)
    as Hpush2.
  eexists vm2, _. split; [exact Hpush|].
  split; [cbn [exec]; rewrite Hpop; cbn [mbind option_bind]; by rewrite Hpush|].
  split; [exact Hpeek2|].
  split; [cbn [exec]; rewrite Hpop2; cbn [mbind option_bind]; by rewrite Hpush2|].
  split; [reflexivity|]. split.
  { apply peek_shape. cbn [stackTop stack vm2 set_stack].
    replace (stackTop vm - 1 - 0) with (stackTop vm - 1) by lia.
    split; [done|]. rewrite lookup_insert_eq. by destruct (isFalsey v). }
  rewrite negb_true_iff, <- not_true_iff_false, isFalsey_iff. tauto.
Qed.

Lemma falsey_is_nil_or_false_witness :
  ∃ vm2, exec OP_NOT 0 (fetched_vm 1 [print_not_nil]) = Some (Next 0 vm2) ∧
         peek 0 vm2 = Some (BOOL_VAL true).
Proof.
  edestruct (falsey_is_nil_or_false NIL_VAL 0 (fetched_vm 1 [print_not_nil]))
    as (_ & _ & _ & vm2 & vm3 & _ & Hexec & Hpeek & _); [evaluated|].
  exists vm2. split; [exact Hexec | exact Hpeek].
Defined.

(** ** Globals *)

Lemma peek_set_frames fs distance vm :
  peek distance (set_frames fs vm) = peek distance vm.
Proof. reflexivity. Qed.

(** C10: [OP_DEFINE_GLOBAL] on a name that is already bound replaces the
    value bound to it by the top of the stack, pops it, and goes on to the
    next instruction: no error is raised and nothing is written to the error
    stream. *)
Theorem define_global_overwrites (frame : Z) (vm vm1 : VM) (name : string)
    (v old : Value) :
  READ_STRING frame vm = Some (name, vm1) →
  peek 0 vm = Some v →
  globals vm !! name = Some old →
  ∃ vm', exec OP_DEFINE_GLOBAL frame vm = Some (Next frame vm') ∧
         globals vm' = <[name := v]> (globals vm) ∧
         globals vm' !! name = Some v ∧
         (∀ other, other ≠ name → globals vm' !! other = globals vm !! other) ∧
         stderr vm' = stderr vm ∧
         frameCount vm' = frameCount vm ∧
         stackTop vm' = stackTop vm - 1.
Proof.
  intros Hread Hpeek _.
  destruct (READ_STRING_frames _ _ _ _ Hread) as [fs ->].
  simpl. rewrite Hread. simpl. rewrite peek_set_frames, Hpeek. simpl.
  match goal with
  | |- context [pop ?x] =>
      rewrite (peek_0_pop v x) by (by rewrite <- Hpeek)
  end.
  simpl. eexists. split; [reflexivity|]. simpl.
  split; [done|]. split; [apply lookup_insert_eq|].
  split; [|done]. intros other Hne. by rewrite lookup_insert_ne.
Qed.

Lemma define_global_overwrites_witness :
  ∃ vm', exec OP_DEFINE_GLOBAL 0 (fetched_vm 1 [redefine_clock])
           = Some (Next 0 vm') ∧
         globals vm' !! "clock" = Some (NUMBER_VAL 1).
Proof.
  destruct (define_global_overwrites 0 (fetched_vm 1 [redefine_clock])
              (set_frames (<[0 := mkFrame 0 4 0]>
                             (frames (fetched_vm 1 [redefine_clock])))
                          (fetched_vm 1 [redefine_clock]))
              "clock" (NUMBER_VAL 1) (OBJ_VAL (OBJ_NATIVE 0)))
    as (vm' & Hexec & _ & Hnew & _).
  - vm_compute. reflexivity.
  - vm_compute. reflexivity.
  - vm_compute. reflexivity.
  - exists vm'. split; [exact Hexec | exact Hnew].
Defined.

(** C3: for a name that is not bound in the globals table, [OP_GET_GLOBAL]
    raises the runtime error "Undefined variable 'name'.", and so does
    [OP_SET_GLOBAL], which leaves the globals mapping as it was: the name is
    not created and no other binding changes. *)
Theorem undefined_global_is_runtime_error (frame : Z) (vm vm1 : VM)
    (name : string) (trace : string) :
  READ_STRING frame vm = Some (name, vm1) →
  globals vm !! name = None →
  stackTrace (Z.to_nat (frameCount vm1)) vm1 = Some trace →
  let reported :=
    stderr vm +:+ ("Undefined variable '" +:+ name +:+ "'.") +:+ newline +:+ trace in
  (∃ vm', exec OP_GET_GLOBAL frame vm = Some (Return INTERPRET_RUNTIME_ERROR vm') ∧
          stderr vm' = reported ∧
          globals vm' = globals vm) ∧
  (∀ v, peek 0 vm = Some v →
        ∃ vm', exec OP_SET_GLOBAL frame vm = Some (Return INTERPRET_RUNTIME_ERROR vm') ∧
               stderr vm' = reported ∧
               globals vm' = globals vm).
Proof.
  intros Hread Hfree Htrace reported.
  destruct (READ_STRING_frames _ _ _ _ Hread) as [fs ->].
  split.
  - simpl. rewrite Hread. simpl. unfold tableGet. rewrite Hfree.
    rewrite (runtimeError_traced _ _ trace Htrace). simpl.
    eexists. split; [reflexivity|]. by simpl.
  - intros v Hpeek. simpl. rewrite Hread. simpl.
    rewrite peek_set_frames, Hpeek. simpl.
    rewrite bool_decide_eq_true_2 by exact Hfree.
    rewrite (delete_insert_id _ _ _ Hfree).
    erewrite runtimeError_traced; [|exact Htrace].
    simpl. eexists. split; [reflexivity|]. by simpl.
Qed.

Lemma undefined_global_is_runtime_error_witness :
  (∃ vm', exec OP_GET_GLOBAL 0 (fetched_vm 0 [print_undefined])
            = Some (Return INTERPRET_RUNTIME_ERROR vm') ∧
          stderr vm' = "Undefined variable 'undefined'." +:+ newline +:+
                       "[line 1] in script" +:+ newline) ∧
  (∃ vm', exec OP_SET_GLOBAL 0 (fetched_vm 1 [assign_undefined])
            = Some (Return INTERPRET_RUNTIME_ERROR vm') ∧
          globals vm' = globals (fetched_vm 1 [assign_undefined])).
Proof.
  split.
  - destruct (undefined_global_is_runtime_error 0 (fetched_vm 0 [print_undefined])
                (set_frames (<[0 := mkFrame 0 2 0]>
                               (frames (fetched_vm 0 [print_undefined])))
                            (fetched_vm 0 [print_undefined]))
                "undefined" ("[line 1] in script" +:+ newline))
      as [(vm' & Hexec & Herr & _) _].
    + vm_compute. reflexivity.
    + vm_compute. reflexivity.
    + vm_compute. reflexivity.
    + exists vm'. split; [exact Hexec | exact Herr].
  - destruct (undefined_global_is_runtime_error 0 (fetched_vm 1 [assign_undefined])
                (set_frames (<[0 := mkFrame 0 4 0]>
                               (frames (fetched_vm 1 [assign_undefined])))
                            (fetched_vm 1 [assign_undefined]))
                "undefined" ("[line 1] in script" +:+ newline))
      as [_ Hset].
    + vm_compute. reflexivity.
    + vm_compute. reflexivity.
    + vm_compute. reflexivity.
    + destruct (Hset (NUMBER_VAL 1)) as (vm' & Hexec & _ & Hglobals).
      * vm_compute. reflexivity.
      * exists vm'. split; [exact Hexec | exact Hglobals].
Defined.

(** ** Calls *)

(** C4: [OP_CALL] with operand [argCount] on the value [callee] found
    [argCount] slots below the top of the stack.
    - A closure whose function's arity differs from [argCount]: runtime
      error, the message giving the expected and the actual count.
    - A closure of the right arity when [FRAMES_MAX] frames are active:
      runtime error "Stack overflow.".
    - A closure otherwise: a frame is pushed with [ip] at the start of the
      function's code and [slots = stackTop - argCount - 1]; the loop goes on
      in that frame.
    - A native: no frame is pushed; the callee and its [argCount] arguments
      are replaced by the one value the native returns.
    - Anything else: runtime error. *)
Theorem call_value_cases (frame : Z) (vm vm1 : VM) (argCount : Z)
    (callee : Value) :
  READ_BYTE frame vm = Some (argCount, vm1) →
  peek argCount vm = Some callee →
  (∀ c cl fn,
     callee = OBJ_VAL (OBJ_CLOSURE c) →
     objClosures vm !! c = Some cl →
     objFunctions vm !! function cl = Some fn →
     (∀ trace,
        stackTrace (Z.to_nat (frameCount vm1)) vm1 = Some trace →
        (argCount ≠ arity fn →
         ∃ vm', exec OP_CALL frame vm = Some (Return INTERPRET_RUNTIME_ERROR vm') ∧
                stderr vm' =
                  stderr vm +:+
                  ("Expected " +:+ pretty (arity fn) +:+ " arguments but got " +:+
                   pretty argCount +:+ ".") +:+ newline +:+ trace) ∧
        (argCount = arity fn → frameCount vm = FRAMES_MAX →
         ∃ vm', exec OP_CALL frame vm = Some (Return INTERPRET_RUNTIME_ERROR vm') ∧
                stderr vm' = stderr vm +:+ "Stack overflow." +:+ newline +:+ trace)) ∧
     (argCount = arity fn → frameCount vm ≠ FRAMES_MAX →
      ∃ vm', exec OP_CALL frame vm = Some (Next (frameCount vm) vm') ∧
             frameCount vm' = frameCount vm + 1 ∧
             frames vm' !! frameCount vm
               = Some (mkFrame c 0 (stackTop vm - argCount - 1)) ∧
             stack vm' = stack vm ∧
             stackTop vm' = stackTop vm ∧
             stderr vm' = stderr vm)) ∧
  (∀ n native,
     callee = OBJ_VAL (OBJ_NATIVE n) →
     objNatives vm !! n = Some native →
     ∃ vm', exec OP_CALL frame vm = Some (Next (frameCount vm - 1) vm') ∧
            frameCount vm' = frameCount vm ∧
            frames vm' = frames vm1 ∧
            stack vm' = <[stackTop vm - argCount - 1 :=
                            native argCount (stackTop vm - argCount) (stack vm)]>
                          (stack vm) ∧
            stackTop vm' = stackTop vm - argCount ∧
            stderr vm' = stderr vm) ∧
  (∀ trace,
     (∀ c, callee ≠ OBJ_VAL (OBJ_CLOSURE c)) →
     (∀ n, callee ≠ OBJ_VAL (OBJ_NATIVE n)) →
     stackTrace (Z.to_nat (frameCount vm1)) vm1 = Some trace →
     ∃ vm', exec OP_CALL frame vm = Some (Return INTERPRET_RUNTIME_ERROR vm') ∧
            stderr vm' =
              stderr vm +:+ "Can only call functions and classes." +:+ newline +:+ trace).
Proof.
  intros Hread Hpeek.
  destruct (READ_BYTE_frames _ _ _ _ Hread) as [fs ->].
  assert (Hexec : exec OP_CALL frame vm =
            '(ok, vm') ← callValue callee argCount (set_frames fs vm);
            if ok : bool then Some (Next (frameCount vm' - 1) vm')
            else Some (Return INTERPRET_RUNTIME_ERROR vm')).
  { simpl. rewrite Hread. simpl. by rewrite peek_set_frames, Hpeek. }
  rewrite Hexec. clear Hexec Hread.
  apply peek_shape in Hpeek as [Hslot _].
  split; [|split].
  - intros c cl fn -> Hcl Hfn. simpl. unfold call. simpl.
    rewrite Hcl. simpl. rewrite Hfn. simpl. split.
    + intros trace Htrace. split.
      * intros Hne. rewrite decide_True by done.
        rewrite (runtimeError_traced _ _ trace Htrace). simpl.
        eexists. split; reflexivity.
      * intros Heq Hfull. rewrite decide_False by (intros ?; done).
        rewrite decide_True by done.
        rewrite (runtimeError_traced _ _ trace Htrace). simpl.
        eexists. split; reflexivity.
    + intros Heq Hroom. rewrite decide_False by (intros ?; done).
      rewrite decide_False by done. simpl.
      eexists. split; [f_equal; f_equal; lia|]. simpl.
      split; [done|]. split; [apply lookup_insert_eq|]. done.
  - intros n native -> Hnative. simpl. rewrite Hnative. simpl.
    rewrite push_Some by (simpl; lia). simpl.
    eexists. split; [reflexivity|]. simpl.
    repeat split; try done; try lia.
    f_equal. lia.
  - intros trace Hnc Hnn Htrace.
    assert (Hcv : callValue callee argCount (set_frames fs vm) =
                  vm' ← runtimeError "Can only call functions and classes."
                                     (set_frames fs vm);
                  Some (false, vm')).
    { destruct callee as [| | |[]]; try reflexivity.
      - by destruct (Hnn ref).
      - by destruct (Hnc ref). }
    rewrite Hcv, (runtimeError_traced _ _ trace Htrace). simpl.
    eexists. split; reflexivity.
Qed.


Lemma call_value_cases_witness :
  (∃ vm', exec OP_CALL 0 (fetched_vm 4 call_one_arg)
            = Some (Return INTERPRET_RUNTIME_ERROR vm') ∧
          stderr vm' = "Expected 2 arguments but got 1." +:+ newline +:+
                       "[line 2] in script" +:+ newline) ∧
  (∃ vm', exec OP_CALL 63 (fetched_vm 129 call_forever)
            = Some (Return INTERPRET_RUNTIME_ERROR vm') ∧
          String.prefix ("Stack overflow." +:+ newline +:+ "[line 1] in f()")
                        (stderr vm') = true) ∧
  (∃ vm', exec OP_CALL 0 (fetched_vm 5 call_two_args) = Some (Next 1 vm') ∧
          frames vm' !! 1 = Some (mkFrame 1 0 1)) ∧
  (∃ vm', exec OP_CALL 0 (fetched_vm 1 call_clock) = Some (Next 0 vm') ∧
          frameCount vm' = 1 ∧ stackTop vm' = 2) ∧
  (∃ vm', exec OP_CALL 0 (fetched_vm 1 call_nil)
            = Some (Return INTERPRET_RUNTIME_ERROR vm') ∧
          stderr vm' = "Can only call functions and classes." +:+ newline +:+
                       "[line 1] in script" +:+ newline).
Proof.
  repeat split.
  - edestruct (call_value_cases 0 (fetched_vm 4 call_one_arg)
                 (operand_read 0 (fetched_vm 4 call_one_arg)) 1
                 (OBJ_VAL (OBJ_CLOSURE 1))) as [Hclosure _]; [evaluated ..|].
    edestruct (Hclosure 1%nat) as [Herror _]; [reflexivity | evaluated ..|].
    edestruct Herror as [Harity _]; [evaluated|].
    destruct Harity as (vm' & Hexec & Herr); [by vm_compute|].
    exists vm'. split; [exact Hexec | exact Herr].
  - edestruct (call_value_cases 63 (fetched_vm 129 call_forever)
                 (operand_read 63 (fetched_vm 129 call_forever)) 0
                 (OBJ_VAL (OBJ_CLOSURE 1))) as [Hclosure _]; [evaluated ..|].
    edestruct (Hclosure 1%nat) as [Herror _]; [reflexivity | evaluated ..|].
    edestruct Herror as [_ Hdepth]; [evaluated|].
    destruct Hdepth as (vm' & Hexec & Herr); [evaluated ..|].
    exists vm'. split; [exact Hexec|]. rewrite Herr. evaluated.
  - edestruct (call_value_cases 0 (fetched_vm 5 call_two_args)
                 (operand_read 0 (fetched_vm 5 call_two_args)) 2
                 (OBJ_VAL (OBJ_CLOSURE 1))) as [Hclosure _]; [evaluated ..|].
    edestruct (Hclosure 1%nat) as [_ Hframe]; [reflexivity | evaluated ..|].
    destruct Hframe as (vm' & Hexec & _ & Hfr & _); [evaluated | by vm_compute|].
    exists vm'. split; [exact Hexec | exact Hfr].
  - edestruct (call_value_cases 0 (fetched_vm 1 call_clock)
                 (operand_read 0 (fetched_vm 1 call_clock)) 0
                 (OBJ_VAL (OBJ_NATIVE 0))) as (_ & Hnative & _); [evaluated ..|].
    edestruct (Hnative 0%nat) as (vm' & Hexec & Hcount & _ & _ & Htop & _);
      [reflexivity | evaluated|].
    exists vm'. split; [exact Hexec|]. split; [exact Hcount | exact Htop].
  - edestruct (call_value_cases 0 (fetched_vm 1 call_nil)
                 (operand_read 0 (fetched_vm 1 call_nil)) 0 NIL_VAL)
      as (_ & _ & Hother); [evaluated ..|].
    edestruct Hother as (vm' & Hexec & Herr); [done | done | evaluated|].
    exists vm'. split; [exact Hexec | exact Herr].
Defined.


(** ** The two bounds *)




(** ** Addition *)

(** Two values that can be read on top of the stack leave room for the push
    that replaces them. *)
Lemma two_pops_then_push vm v0 v1 value :
  peek 0 vm = Some v0 →
  peek 1 vm = Some v1 →
  push value (set_stackTop (stackTop vm - 2) vm) =
    Some (set_stackTop (stackTop vm - 1)
            (set_stack (<[stackTop vm - 2 := value]> (stack vm)) vm)).
Proof.
  intros [H0 _]%peek_shape [H1 _]%peek_shape.
  rewrite push_Some by (simpl; lia). simpl. f_equal.
  unfold set_stackTop, set_stack; simpl. f_equal. lia.
Qed.

Lemma peek_peek_pop_pop v0 v1 vm :
  peek 0 vm = Some v0 →
  peek 1 vm = Some v1 →
  pop vm = Some (v0, set_stackTop (stackTop vm - 1) vm) ∧
  pop (set_stackTop (stackTop vm - 1) vm)
    = Some (v1, set_stackTop (stackTop vm - 2) vm).
Proof.
  intros H0 H1. split; [by apply peek_0_pop|].
  rewrite (peek_0_pop _ _ (peek_1_pop _ _ H1)). do 2 f_equal.
  unfold set_stackTop; simpl. f_equal. lia.
Qed.

(** Both operands numbers: the two are replaced by their binary64 sum. *)
Lemma OP_ADD_numbers frame vm a b :
  peek 0 vm = Some (NUMBER_VAL b) →
  peek 1 vm = Some (NUMBER_VAL a) →
  exec OP_ADD frame vm =
    Some (Next frame
            (set_stackTop (stackTop vm - 1)
               (set_stack (<[stackTop vm - 2 := NUMBER_VAL (PrimFloat.add a b)]>
                             (stack vm)) vm))).
Proof.
  intros H0 H1. destruct (peek_peek_pop_pop _ _ _ H0 H1) as [Hpop0 Hpop1].
  simpl. unfold both. rewrite H0, H1. simpl.
  rewrite Hpop0. simpl. rewrite Hpop1. simpl.
  by rewrite (two_pops_then_push _ _ _ _ H0 H1).
Qed.

(** Both operands strings: the two are replaced by the string of the bytes
    of the first followed by the bytes of the second. *)
Lemma OP_ADD_strings frame vm a b :
  peek 0 vm = Some (OBJ_VAL (OBJ_STRING b)) →
  peek 1 vm = Some (OBJ_VAL (OBJ_STRING a)) →
  exec OP_ADD frame vm =
    Some (Next frame
            (set_stackTop (stackTop vm - 1)
               (set_stack (<[stackTop vm - 2 := OBJ_VAL (OBJ_STRING (a +:+ b))]>
                             (stack vm)) vm))).
Proof.
  intros H0 H1. destruct (peek_peek_pop_pop _ _ _ H0 H1) as [Hpop0 Hpop1].
  simpl. unfold both. rewrite H0, H1. simpl.
  unfold concatenate.
  rewrite Hpop0. simpl. rewrite Hpop1. simpl.
  by rewrite (two_pops_then_push _ _ _ _ H0 H1).
Qed.

(** Any other pair of operands: the message of a runtime error is reported,
    and [run] returns [INTERPRET_COMPILE_ERROR]. *)
Lemma OP_ADD_otherwise frame vm v0 v1 trace :
  peek 0 vm = Some v0 →
  peek 1 vm = Some v1 →
  IS_STRING v0 && IS_STRING v1 = false →
  IS_NUMBER v0 && IS_NUMBER v1 = false →
  stackTrace (Z.to_nat (frameCount vm)) vm = Some trace →
  exec OP_ADD frame vm =
    Some (Return INTERPRET_COMPILE_ERROR
            (resetStack
               (set_stderr (stderr vm +:+
                            "Operands must be two numbers or two strings." +:+
                            newline +:+ trace) vm))).
Proof.
  intros H0 H1 Hs Hn Htrace. simpl. unfold both. rewrite H0, H1. simpl.
  replace (if IS_STRING v0 then Some (IS_STRING v1) else Some false)
    with (Some (IS_STRING v0 && IS_STRING v1)) by (by destruct (IS_STRING v0)).
  rewrite Hs. simpl.
  replace (if IS_NUMBER v0 then Some (IS_NUMBER v1) else Some false)
    with (Some (IS_NUMBER v0 && IS_NUMBER v1)) by (by destruct (IS_NUMBER v0)).
  rewrite Hn. simpl.
  by rewrite (runtimeError_traced _ _ trace Htrace).
Qed.

(** C1, where the code departs from it: [print 1 + "a";] reports the runtime
    error of [OP_ADD] with its stack trace, and [interpret] returns
    [INTERPRET_COMPILE_ERROR]. *)
Theorem add_number_and_string_result :
  let e := interpret 10 (Some 0%nat) (started [print_mixed]) in
  exit_result e = Some INTERPRET_COMPILE_ERROR ∧
  (stderr <$> exit_vm e) =
    Some ("Operands must be two numbers or two strings." +:+ newline +:+
          "[line 1] in script" +:+ newline) ∧
  (stdout <$> exit_vm e) = Some [].
Proof. vm_compute. repeat split. Qed.

(** ** Runtime errors *)

Lemma runtimeError_resets message vm vm' :
  runtimeError message vm = Some vm' →
  ∃ trace, stackTrace (Z.to_nat (frameCount vm)) vm = Some trace ∧
           stderr vm' = stderr vm +:+ message +:+ newline +:+ trace ∧
           stackTop vm' = 0 ∧ frameCount vm' = 0 ∧ openUpvalues vm' = [].
Proof.
  unfold runtimeError. intros H.
  destruct (stackTrace (Z.to_nat (frameCount vm)) vm) as [trace|]; simpl in H;
    [|done].
  injection H as <-. by exists trace.
Qed.

(** One line of the trace per active frame, the topmost first. *)
Lemma stackTrace_step i vm fr fn line rest :
  frames vm !! Z.of_nat i = Some fr →
  frameFunction fr vm = Some fn →
  index (lines (chunk fn)) (ip fr - 1) = Some line →
  stackTrace i vm = Some rest →
  stackTrace (S i) vm =
    Some ("[line " +:+ pretty line +:+ "] in " +:+
          match name fn with
          | None => "script" +:+ newline
          | Some chars => chars +:+ "()" +:+ newline
          end +:+ rest).
Proof.
  intros Hfr Hfn Hline Hrest.
  change (stackTrace (S i) vm) with
    (fr ← frames vm !! Z.of_nat i;
     fn ← frameFunction fr vm;
     line ← index (lines (chunk fn)) (ip fr - 1);
     rest ← stackTrace i vm;
     Some ("[line " +:+ pretty line +:+ "] in " +:+
           match name fn with
           | None => "script" +:+ newline
           | Some chars => chars +:+ "()" +:+ newline
           end +:+ rest)).
  rewrite Hfr. simpl. rewrite Hfn. simpl. rewrite Hline. simpl.
  by rewrite Hrest.
Qed.

Lemma BINARY_OP_return {A} (valueType : A → Value) op frame vm r vm' :
  BINARY_OP valueType op frame vm = Some (Return r vm') →
  r = INTERPRET_RUNTIME_ERROR ∧
  runtimeError "Operands must be numbers." vm = Some vm'.
Proof.
  unfold BINARY_OP. intros H.
  destruct (both IS_NUMBER vm) as [[]|]; simpl in H; [| |done].
  - destruct (pop vm) as [[vb vm1]|]; simpl in H; [|done].
    destruct (AS_NUMBER vb); simpl in H; [|done].
    destruct (pop vm1) as [[va vm2]|]; simpl in H; [|done].
    destruct (AS_NUMBER va); simpl in H; [|done].
    destruct (push _ _); simpl in H; done.
  - destruct (runtimeError _ vm); simpl in H; [|done].
    by injection H as <- <-.
Qed.

(** X1: every way [run] returns: [INTERPRET_OK] from [OP_RETURN],
    [INTERPRET_COMPILE_ERROR] from [OP_ADD], [INTERPRET_RUNTIME_ERROR] from
    the other instructions that report an error. *)
Lemma exec_return_cases instruction frame vm r vm' :
  exec instruction frame vm = Some (Return r vm') →
  match r with
  | INTERPRET_OK => instruction = OP_RETURN
  | INTERPRET_COMPILE_ERROR => instruction = OP_ADD
  | INTERPRET_RUNTIME_ERROR => instruction ≠ OP_ADD ∧ instruction ≠ OP_RETURN
  end.
Proof.
  destruct instruction; intros H;
    try (apply BINARY_OP_return in H as [-> _]; by split);
    simpl in H;
    repeat match type of H with
           | context [mbind _ ?m] =>
               let E := fresh in destruct m as [[]|] eqn:E; simpl in H
           | context [mbind _ ?m] =>
               let E := fresh in destruct m eqn:E; simpl in H
           | context [match ?m with _ => _ end] =>
               let E := fresh in destruct m eqn:E; simpl in H
           | context [if ?b then _ else _] =>
               let E := fresh in destruct b eqn:E; simpl in H
           end;
    try discriminate; try (injection H as <- <-; done).
Qed.

(** C9, where the code departs from it: the runtime error raised by
    ["a" + 1] inside [f] writes the message, one trace line per active
    frame from the topmost down, and resets the operand stack, the frame
    stack and the open-upvalue list; [interpret] then returns
    [INTERPRET_COMPILE_ERROR]. *)
Theorem runtime_error_in_add_result :
  let e := interpret 20 (Some 0%nat) (started add_in_function) in
  exit_result e = Some INTERPRET_COMPILE_ERROR ∧
  (stderr <$> exit_vm e) =
    Some ("Operands must be two numbers or two strings." +:+ newline +:+
          "[line 1] in f()" +:+ newline +:+
          "[line 2] in script" +:+ newline) ∧
  (stackTop <$> exit_vm e) = Some 0 ∧
  (frameCount <$> exit_vm e) = Some 0 ∧
  (openUpvalues <$> exit_vm e) = Some [].
Proof. vm_compute. repeat split. Qed.

(** ** Upvalues *)

Lemma pointsTo_slot objs chain addrs u :
  pointsTo objs chain addrs → u ∈ chain →
  ∃ a, a ∈ addrs ∧ openSlot objs u = Some a.
Proof.
  intros H Hu. induction H as [|u' a chain addrs Hua _ IH].
  - by apply elem_of_nil in Hu.
  - apply elem_of_cons in Hu as [->|Hu].
    + exists a. split; [left|done].
    + destruct (IH Hu) as (b & Hb & Hub). exists b. split; [by right|done].
Qed.

Lemma descending_NoDup addrs : descending addrs → NoDup addrs.
Proof.
  induction addrs as [|a rest IH]; simpl; [constructor|].
  intros [Hlt Hrest]. constructor; [|by apply IH].
  intros Hin. rewrite Forall_forall in Hlt. specialize (Hlt a Hin). lia.
Qed.

(** Closing a node leaves the rest of a descending chain as it was. *)
Lemma pointsTo_insert_above objs chain addrs u a o :
  openSlot objs u = Some a →
  Forall (λ b, b < a) addrs →
  pointsTo objs chain addrs →
  pointsTo (<[u := o]> objs) chain addrs ∧ u ∉ chain.
Proof.
  intros Hu Hlt H. induction H as [|u' b chain addrs Hub _ IH].
  - split; [constructor|]. by intros ?%elem_of_nil.
  - apply Forall_cons in Hlt as [Hb Hlt]. destruct (IH Hlt) as [IH1 IH2].
    assert (u ≠ u') by (intros ->; rewrite Hu in Hub; injection Hub; lia).
    split.
    + constructor; [|done]. unfold openSlot.
      by rewrite list_lookup_insert_ne.
    + intros [->|?]%elem_of_cons; done.
Qed.

Lemma filter_below_all objs last chain addrs :
  Forall (λ b, b < last) addrs → pointsTo objs chain addrs →
  List.filter (below objs last) chain = chain.
Proof.
  intros Hlt H. induction H as [|u b chain addrs Hub _ IH]; simpl; [done|].
  apply Forall_cons in Hlt as [Hb Hlt]. unfold below at 1. rewrite Hub.
  rewrite bool_decide_eq_true_2 by lia. by rewrite IH.
Qed.

Lemma filter_below_insert objs last chain u o :
  u ∉ chain →
  List.filter (below (<[u := o]> objs) last) chain
  = List.filter (below objs last) chain.
Proof.
  intros Hu. induction chain as [|u' chain IH]; simpl; [done|].
  apply not_elem_of_cons in Hu as [Hne Hu]. rewrite (IH Hu).
  unfold below, openSlot. by rewrite list_lookup_insert_ne.
Qed.

(** The loop of [closeUpvalues] on a descending chain: the nodes at or above
    [last] are closed on the value of their slot and leave the chain, the
    nodes below stay, every other upvalue object is untouched. *)
Lemma closeUpvalues_loop_spec last chain : ∀ addrs vm,
  pointsTo (objUpvalues vm) chain addrs →
  descending addrs →
  (∀ a, a ∈ addrs → last ≤ a → is_Some (load (StackPtr a) vm)) →
  ∃ objs',
    closeUpvalues_loop last chain vm =
      Some (set_openUpvalues (List.filter (below (objUpvalues vm) last) chain)
              (set_objUpvalues objs' vm)) ∧
    (∀ u a, u ∈ chain → openSlot (objUpvalues vm) u = Some a → last ≤ a →
            ∃ v, load (StackPtr a) vm = Some v ∧
                 objs' !! u = Some (mkUpvalue (ClosedPtr u) v)) ∧
    (∀ u, ¬ (u ∈ chain ∧ ∃ a, openSlot (objUpvalues vm) u = Some a ∧ last ≤ a) →
          objs' !! u = objUpvalues vm !! u).
Proof.
  induction chain as [|u next IH]; intros addrs vm Hpts Hdesc Hreadable.
  - exists (objUpvalues vm). simpl. split; [by destruct vm|].
    split; [|done]. by intros u a ?%elem_of_nil.
  - inversion Hpts as [|? a ? rest Hua Hrest]; subst. simpl in Hdesc.
    destruct Hdesc as [Hlt Hdesc].
    pose proof Hua as Hua'. unfold openSlot in Hua'.
    destruct (objUpvalues vm !! u) as [o|] eqn:Ho; simpl in Hua'; [|done].
    destruct (location o) as [a'|] eqn:Hloc; [|done].
    injection Hua' as ->.
    cbn [closeUpvalues_loop]. rewrite Ho. cbn [mbind option_bind].
    rewrite Hloc. cbn [mbind option_bind ptr_ge].
    destruct (decide (last ≤ a)) as [Hge|Hbelow].
    + rewrite bool_decide_eq_true_2 by lia.
      destruct (Hreadable a) as [v Hv]; [left|done|].
      rewrite Hv. cbn [mbind option_bind].
      set (closed_u := mkUpvalue (ClosedPtr u) v).
      set (vm1 := set_objUpvalues (<[u := closed_u]> (objUpvalues vm)) vm).
      destruct (pointsTo_insert_above _ _ _ u a closed_u Hua Hlt Hrest)
        as [Hrest1 Hfresh].
      destruct (IH rest vm1 Hrest1 Hdesc) as (objs' & Hloop & Hclosed & Hkept).
      { intros b Hb. apply Hreadable. by right. }
      exists objs'. split; [|split].
      * rewrite Hloop. f_equal. simpl.
        unfold below at 2. rewrite Hua.
        rewrite bool_decide_eq_false_2 by lia.
        by rewrite filter_below_insert.
      * intros u' b [->|Hin]%elem_of_cons Hub Hle.
        -- rewrite Hua in Hub. injection Hub as <-.
           exists v. split; [done|]. rewrite Hkept.
           ++ simpl. apply list_lookup_insert_eq. by eapply lookup_lt_Some.
           ++ intros [? _]. done.
        -- apply (Hclosed u' b Hin); [|done]. simpl. unfold openSlot.
           rewrite list_lookup_insert_ne; [done|]. by intros ->.
      * intros u' Hnot. assert (u ≠ u') as Hne.
        { intros <-. apply Hnot. split; [left|]. eauto. }
        rewrite Hkept.
        -- simpl. by rewrite list_lookup_insert_ne.
        -- intros (Hin & b & Hub & Hle). apply Hnot. split; [by right|].
           exists b. split; [|done]. revert Hub. simpl. unfold openSlot.
           by rewrite list_lookup_insert_ne.
    + rewrite bool_decide_eq_false_2 by lia.
      exists (objUpvalues vm). split; [|split].
      * f_equal.
        change (if below (objUpvalues vm) last u
                then u :: List.filter (below (objUpvalues vm) last) next
                else List.filter (below (objUpvalues vm) last) next)
          with (List.filter (below (objUpvalues vm) last) (u :: next)).
        rewrite (filter_below_all _ _ _ (a :: rest)); [by destruct vm| |done].
        constructor; [lia|]. eapply Forall_impl; [exact Hlt|].
        simpl. intros; lia.
      * intros u' b Hin Hub Hle. exfalso.
        destruct (pointsTo_slot _ _ _ u' Hpts Hin) as (c & Hc & Huc).
        rewrite Hub in Huc. injection Huc as <-.
        apply elem_of_cons in Hc as [->|Hc]; [lia|].
        rewrite Forall_forall in Hlt. specialize (Hlt b Hc). lia.
      * done.
Qed.

Lemma pointsTo_filter_below objs objs' last chain addrs :
  pointsTo objs chain addrs →
  (∀ u, below objs last u = true → objs' !! u = objs !! u) →
  pointsTo objs' (List.filter (below objs last) chain)
           (List.filter (λ a, bool_decide (a < last)) addrs).
Proof.
  intros H Hsame. induction H as [|u a chain addrs Hua _ IH]; simpl;
    [constructor|].
  destruct (below objs last u) eqn:Hb.
  - pose proof Hb as Hb'. unfold below in Hb'. rewrite Hua in Hb'. rewrite Hb'.
    constructor; [|done]. unfold openSlot. rewrite (Hsame u Hb). exact Hua.
  - unfold below in Hb. rewrite Hua in Hb. by rewrite Hb.
Qed.

(** [closeUpvalues] on a machine whose open-upvalue list is in order. *)
Lemma closeUpvalues_spec last vm addrs :
  pointsTo (objUpvalues vm) (openUpvalues vm) addrs →
  descending addrs →
  (∀ a, a ∈ addrs → last ≤ a → is_Some (load (StackPtr a) vm)) →
  ∃ objs',
    closeUpvalues last vm =
      Some (set_openUpvalues
              (List.filter (below (objUpvalues vm) last) (openUpvalues vm))
              (set_objUpvalues objs' vm)) ∧
    (∀ u a, u ∈ openUpvalues vm → openSlot (objUpvalues vm) u = Some a →
            last ≤ a →
            ∃ v, load (StackPtr a) vm = Some v ∧
                 objs' !! u = Some (mkUpvalue (ClosedPtr u) v)) ∧
    (∀ u, ¬ (u ∈ openUpvalues vm ∧
             ∃ a, openSlot (objUpvalues vm) u = Some a ∧ last ≤ a) →
          objs' !! u = objUpvalues vm !! u) ∧
    pointsTo objs' (List.filter (below (objUpvalues vm) last) (openUpvalues vm))
             (List.filter (λ a, bool_decide (a < last)) addrs).
Proof.
  intros Hpts Hdesc Hreadable.
  destruct (closeUpvalues_loop_spec last (openUpvalues vm) addrs vm
              Hpts Hdesc Hreadable) as (objs' & Hloop & Hclosed & Hkept).
  exists objs'. repeat split; try done.
  apply pointsTo_filter_below; [done|].
  intros u Hb. apply Hkept. intros (_ & a & Hua & Hle).
  unfold below in Hb. rewrite Hua in Hb.
  apply bool_decide_eq_true_1 in Hb. lia.
Qed.

(** C6: on a machine whose open-upvalue list is in descending order of
    location, the slots at or above [last] being cells of the stack that
    hold a value, [closeUpvalues last] removes from the list exactly the
    entries whose location is at or above [last], in each of them copies the
    value of the slot into [closed] and repoints [location] at that field;
    the entries below [last] stay in the list, open and unchanged. *)
Theorem closeUpvalues_closes_at_or_above (last : Z) (vm : VM) (addrs : list Z) :
  pointsTo (objUpvalues vm) (openUpvalues vm) addrs →
  descending addrs →
  (∀ a, a ∈ addrs → last ≤ a → is_Some (load (StackPtr a) vm)) →
  ∃ vm',
    closeUpvalues last vm = Some vm' ∧
    openUpvalues vm' = List.filter (below (objUpvalues vm) last) (openUpvalues vm) ∧
    (∀ u a, u ∈ openUpvalues vm → openSlot (objUpvalues vm) u = Some a →
            last ≤ a →
            (u ∉ openUpvalues vm') ∧
            ∃ v, load (StackPtr a) vm = Some v ∧
                 objUpvalues vm' !! u = Some (mkUpvalue (ClosedPtr u) v)) ∧
    (∀ u a, u ∈ openUpvalues vm → openSlot (objUpvalues vm) u = Some a →
            a < last →
            u ∈ openUpvalues vm' ∧
            objUpvalues vm' !! u = objUpvalues vm !! u) ∧
    pointsTo (objUpvalues vm') (openUpvalues vm')
             (List.filter (λ a, bool_decide (a < last)) addrs) ∧
    stack vm' = stack vm ∧ stackTop vm' = stackTop vm.
Proof.
  intros Hpts Hdesc Hreadable.
  destruct (closeUpvalues_spec last vm addrs Hpts Hdesc Hreadable)
    as (objs' & Hclose & Hclosed & Hkept & Hrest).
  eexists. split; [exact Hclose|]. simpl.
  split; [done|]. split; [|split; [|done]].
  - intros u a Hin Hua Hle. split; [|by eapply Hclosed].
    rewrite list_elem_of_In, filter_In. intros [_ Hb].
    unfold below in Hb. rewrite Hua in Hb.
    apply bool_decide_eq_true_1 in Hb. lia.
  - intros u a Hin Hua Hlt. split.
    + rewrite list_elem_of_In, filter_In. split; [by apply list_elem_of_In|].
      unfold below. rewrite Hua. by apply bool_decide_eq_true_2.
    + apply Hkept. intros (_ & b & Hub & Hle).
      rewrite Hua in Hub. injection Hub as <-. lia.
Qed.

Lemma closeUpvalues_closes_at_or_above_witness :
  ∃ vm', closeUpvalues 1 (fetched_vm 7 counter) = Some vm' ∧
         openUpvalues vm' = [] ∧
         objUpvalues vm' !! 0%nat = Some (mkUpvalue (ClosedPtr 0) (NUMBER_VAL 0)).
Proof.
  destruct (closeUpvalues_closes_at_or_above 1 (fetched_vm 7 counter) [2])
    as (vm' & Hclose & Hopen & Hclosed & _).
  - vm_compute. repeat constructor.
  - simpl. split; constructor.
  - intros a ->%list_elem_of_singleton _. vm_compute. eauto.
  - exists vm'. split; [exact Hclose|]. split; [rewrite Hopen; evaluated|].
    destruct (Hclosed 0%nat 2) as (_ & v & Hv & Hobj).
    + vm_compute. left.
    + evaluated.
    + lia.
    + rewrite Hobj. vm_compute in Hv. by injection Hv as <-.
Defined.

Lemma descending_app l1 l2 :
  descending (l1 ++ l2) ↔
  descending l1 ∧ descending l2 ∧ ∀ x y, x ∈ l1 → y ∈ l2 → y < x.
Proof.
  induction l1 as [|a l1 IH]; simpl.
  - split; [|tauto]. intros H. repeat split; try done.
    by intros x y ?%elem_of_nil.
  - rewrite Forall_app, IH. split.
    + intros [[H1 H2] (H3 & H4 & H5)]. repeat split; try done.
      intros x y [->|Hx]%elem_of_cons Hy; [|by apply H5].
      rewrite Forall_forall in H2. by apply H2.
    + intros ([H1 H2] & H3 & H4). repeat split; try done.
      * rewrite Forall_forall. intros y Hy. apply H4; [left|done].
      * intros x y Hx Hy. apply H4; [by right|done].
Qed.

Lemma pointsTo_app_alloc objs chain addrs o :
  pointsTo objs chain addrs → pointsTo (objs ++ [o]) chain addrs.
Proof.
  intros H. induction H as [|u a chain addrs Hua _ IH]; constructor; [|done].
  unfold openSlot in *.
  destruct (objs !! u) as [o'|] eqn:Ho; simpl in Hua; [|done].
  by rewrite (lookup_app_l_Some _ _ _ _ Ho).
Qed.

(** [resetStack] leaves the open-upvalue list empty, hence in order. *)
Lemma resetStack_ordered vm :
  pointsTo (objUpvalues (resetStack vm)) (openUpvalues (resetStack vm)) [] ∧
  descending [].
Proof. split; [constructor | exact I]. Qed.

(** The walk of [captureUpvalue] over a chain in order stops between the
    nodes above [local] and the others. *)
Lemma captureUpvalue_walk_spec objs local chain : ∀ addrs,
  pointsTo objs chain addrs →
  descending addrs →
  ∃ walked rest higher lower,
    captureUpvalue_walk objs local chain = Some (walked, rest) ∧
    chain = walked ++ rest ∧ addrs = higher ++ lower ∧
    pointsTo objs walked higher ∧ pointsTo objs rest lower ∧
    Forall (λ a, local < a) higher ∧ Forall (λ a, a ≤ local) lower.
Proof.
  induction chain as [|u next IH]; intros addrs Hpts Hdesc.
  - inversion Hpts; subst. exists [], [], [], []. simpl.
    repeat split; constructor.
  - inversion Hpts as [|? a ? rest Hua Hrest]; subst.
    destruct Hdesc as [Hlt Hdesc].
    pose proof Hua as Hua'. unfold openSlot in Hua'.
    destruct (objs !! u) as [o|] eqn:Ho; simpl in Hua'; [|done].
    destruct (location o) as [a'|] eqn:Hloc; [|done].
    injection Hua' as ->.
    cbn [captureUpvalue_walk]. rewrite Ho. simpl. rewrite Hloc. simpl.
    destruct (decide (local < a)) as [Habove|Hnot].
    + rewrite bool_decide_eq_true_2 by lia.
      destruct (IH rest Hrest Hdesc)
        as (walked & rest' & higher & lower & -> & -> & -> & H1 & H2 & H3 & H4).
      exists (u :: walked), rest', (a :: higher), lower. simpl.
      repeat split; try done; by constructor.
    + rewrite bool_decide_eq_false_2 by lia.
      exists [], (u :: next), [], (a :: rest). simpl.
      repeat split; try done; try constructor; try lia.
      eapply Forall_impl; [exact Hlt|]. simpl. intros; lia.
Qed.

(** C7: the open-upvalue list is strictly descending in location, hence
    holds at most one entry per stack address, and [captureUpvalue] keeps it
    so.  Capturing an address that has an open upvalue returns that upvalue
    and changes nothing; capturing another address allocates one upvalue and
    links it between the entries above the address and the entries below. *)
Theorem captureUpvalue_keeps_order (local : Z) (vm : VM) (addrs : list Z) :
  pointsTo (objUpvalues vm) (openUpvalues vm) addrs →
  descending addrs →
  NoDup addrs ∧
  ∃ u vm' addrs',
    captureUpvalue local vm = Some (u, vm') ∧
    pointsTo (objUpvalues vm') (openUpvalues vm') addrs' ∧
    descending addrs' ∧
    u ∈ openUpvalues vm' ∧
    openSlot (objUpvalues vm') u = Some local ∧
    (local ∈ addrs → vm' = vm ∧ addrs' = addrs) ∧
    (local ∉ addrs →
     ∃ walked rest higher lower,
       openUpvalues vm = walked ++ rest ∧ addrs = higher ++ lower ∧
       pointsTo (objUpvalues vm) walked higher ∧
       pointsTo (objUpvalues vm) rest lower ∧
       Forall (λ a, local < a) higher ∧ Forall (λ a, a < local) lower ∧
       u = length (objUpvalues vm) ∧
       vm' = set_openUpvalues (walked ++ u :: rest)
               (set_objUpvalues
                  (objUpvalues vm ++ [mkUpvalue (StackPtr local) NIL_VAL]) vm) ∧
       addrs' = higher ++ local :: lower).
Proof.
  intros Hpts Hdesc. split; [by apply descending_NoDup|].
  destruct (captureUpvalue_walk_spec _ local _ _ Hpts Hdesc)
    as (walked & rest & higher & lower & Hwalk & Hchain & -> & Hhi & Hlo & Hgt & Hle).
  apply descending_app in Hdesc as (Hd1 & Hd2 & Hcross).
  set (u' := length (objUpvalues vm)).
  set (vm1 := set_openUpvalues (walked ++ u' :: rest)
                (set_objUpvalues
                   (objUpvalues vm ++ [mkUpvalue (StackPtr local) NIL_VAL]) vm)).
  (* what the insertion of a new upvalue gives *)
  assert (Hnew : Forall (λ a, a < local) lower →
            pointsTo (objUpvalues vm1) (openUpvalues vm1) (higher ++ local :: lower) ∧
            descending (higher ++ local :: lower) ∧
            u' ∈ openUpvalues vm1 ∧
            openSlot (objUpvalues vm1) u' = Some local).
  { intros Hlt. simpl. repeat split.
    - apply Forall2_app; [by apply pointsTo_app_alloc|].
      constructor; [|by apply pointsTo_app_alloc].
      unfold openSlot, u'. by rewrite lookup_app_r, Nat.sub_diag.
    - apply descending_app. split; [done|]. split; [by split|].
      intros x y Hx [->|Hy]%elem_of_cons.
      + rewrite Forall_forall in Hgt. by apply Hgt.
      + by apply Hcross.
    - apply elem_of_app. right. left.
    - unfold openSlot, u'. by rewrite lookup_app_r, Nat.sub_diag. }
  assert (Hmiss : Forall (λ a, a < local) lower → local ∉ higher ++ lower).
  { intros Hlt [Hin|Hin]%elem_of_app.
    - rewrite Forall_forall in Hgt. specialize (Hgt _ Hin). lia.
    - rewrite Forall_forall in Hlt. specialize (Hlt _ Hin). lia. }
  unfold captureUpvalue. rewrite Hwalk. simpl.
  destruct Hlo as [|u0 a0 rest lower Hu0 Hlo].
  - (* the walk reached the end of the chain *)
    destruct (Hnew ltac:(constructor)) as (H1 & H2 & H3 & H4).
    exists u', vm1, (higher ++ [local]). do 5 (split; [done|]). split.
    + intros Hin. by destruct (Hmiss ltac:(constructor)).
    + intros _. exists walked, [], higher, []. repeat split; try done.
      constructor.
  - pose proof Hu0 as Hu0'. unfold openSlot in Hu0'.
    destruct (objUpvalues vm !! u0) as [o|] eqn:Ho; simpl in Hu0'; [|done].
    destruct (location o) as [a'|] eqn:Hloc; [|done].
    injection Hu0' as ->. simpl. rewrite Hloc. simpl.
    apply Forall_cons in Hle as [Ha0 Hle].
    destruct (decide (a0 = local)) as [->|Hne].
    + (* an open upvalue for this address exists *)
      rewrite bool_decide_eq_true_2 by done.
      exists u0, vm, (higher ++ local :: lower).
      split; [done|]. split; [exact Hpts|].
      split; [by apply descending_app|].
      split; [rewrite Hchain; apply elem_of_app; right; left|].
      split; [done|]. split; [done|].
      intros Hmissing. destruct Hmissing. apply elem_of_app. right. left.
    + rewrite bool_decide_eq_false_2 by done.
      assert (Hlt : Forall (λ a, a < local) (a0 :: lower)).
      { constructor; [lia|]. destruct Hd2 as [Hd2 _].
        eapply Forall_impl; [exact Hd2|]. simpl. intros; lia. }
      destruct (Hnew Hlt) as (H1 & H2 & H3 & H4).
      exists u', vm1, (higher ++ local :: a0 :: lower).
      do 5 (split; [done|]). split.
      * intros Hin. by destruct (Hmiss Hlt).
      * intros _. exists walked, (u0 :: rest), higher, (a0 :: lower).
        repeat split; try done. by constructor.
Qed.

Lemma captureUpvalue_keeps_order_witness :
  ∃ u vm' addrs',
    captureUpvalue 1 (fetched_vm 7 counter) = Some (u, vm') ∧
    pointsTo (objUpvalues vm') (openUpvalues vm') addrs' ∧
    descending addrs' ∧
    u ∈ openUpvalues vm' ∧
    openSlot (objUpvalues vm') u = Some 1.
Proof.
  destruct (captureUpvalue_keeps_order 1 (fetched_vm 7 counter) [2])
    as (_ & u & vm' & addrs' & Hcapture & Hpts & Hdesc & Hin & Hslot & _).
  - vm_compute. repeat constructor.
  - simpl. split; constructor.
  - exists u, vm', addrs'. auto.
Defined.

(** In [make] of the counter program, with [x] captured at slot 2: capturing
    slot 2 again gives the same upvalue, capturing slots 3 and 1 links new
    ones before and after it. *)
Example captureUpvalue_on_counter :
  let vm := fetched_vm 7 counter in
  openUpvalues vm = [0%nat] ∧
  (fst <$> captureUpvalue 2 vm) = Some 0%nat ∧
  (openUpvalues ∘ snd <$> captureUpvalue 2 vm) = Some [0%nat] ∧
  (openUpvalues ∘ snd <$> captureUpvalue 3 vm) = Some [1; 0]%nat ∧
  (openUpvalues ∘ snd <$> captureUpvalue 1 vm) = Some [0; 1]%nat.
Proof. vm_compute. repeat split. Qed.

(** ** Return *)

(** C8: [OP_RETURN] pops the result, closes the open upvalues at or above the
    base [slots] of the returning frame and takes one off the frame count.
    When the count reaches zero it pops the script closure and [run] returns
    [INTERPRET_OK]; otherwise the stack top is set to [slots], the result is
    pushed there and the loop goes on in the frame now topmost.  That push
    is the one [push] does with the stack top at [slots]; with [slots] a
    cell of the stack it leaves the result in that cell and the stack top
    just above it. *)
Theorem return_unwinds_frame (frame : Z) (vm : VM) (result : Value)
    (fr : CallFrame) (addrs : list Z) :
  peek 0 vm = Some result →
  frames vm !! frame = Some fr →
  pointsTo (objUpvalues vm) (openUpvalues vm) addrs →
  descending addrs →
  (∀ a, a ∈ addrs → slots fr ≤ a → is_Some (load (StackPtr a) vm)) →
  ∃ objs',
    let unwound :=
      set_frameCount (frameCount vm - 1)
        (set_openUpvalues
           (List.filter (below (objUpvalues vm) (slots fr)) (openUpvalues vm))
           (set_objUpvalues objs' (set_stackTop (stackTop vm - 1) vm))) in
    (∀ u a, u ∈ openUpvalues vm → openSlot (objUpvalues vm) u = Some a →
            slots fr ≤ a →
            ∃ v, load (StackPtr a) vm = Some v ∧
                 objs' !! u = Some (mkUpvalue (ClosedPtr u) v)) ∧
    (∀ u, ¬ (u ∈ openUpvalues vm ∧
             ∃ a, openSlot (objUpvalues vm) u = Some a ∧ slots fr ≤ a) →
          objs' !! u = objUpvalues vm !! u) ∧
    (frameCount vm - 1 = 0 →
     ∀ script, peek 1 vm = Some script →
       exec OP_RETURN frame vm =
         Some (Return INTERPRET_OK (set_stackTop (stackTop vm - 2) unwound))) ∧
    (frameCount vm - 1 ≠ 0 →
     exec OP_RETURN frame vm =
       Next (frameCount vm - 2) <$> push result (set_stackTop (slots fr) unwound)) ∧
    (0 ≤ slots fr < STACK_MAX →
     push result (set_stackTop (slots fr) unwound) =
       Some (set_stackTop (slots fr + 1)
               (set_stack (<[slots fr := result]> (stack vm)) unwound))).
Proof.
  intros Hpeek Hframe Hpts Hdesc Hreadable.
  set (vm1 := set_stackTop (stackTop vm - 1) vm).
  destruct (closeUpvalues_spec (slots fr) vm1 addrs Hpts Hdesc Hreadable)
    as (objs' & Hclose & Hclosed & Hkept & _).
  exists objs'. simpl. split; [exact Hclosed|]. split; [exact Hkept|].
  rewrite (peek_0_pop _ _ Hpeek). simpl. fold vm1.
  change (frames vm1 !! frame) with (frames vm !! frame).
  rewrite Hframe. simpl. rewrite Hclose. simpl. split; [|split].
  - intros Hzero script Hscript. rewrite decide_True by done.
    match goal with
    | |- context [pop ?x] =>
        rewrite (peek_0_pop script x) by exact (peek_1_pop _ _ Hscript)
    end.
    simpl. do 3 f_equal. lia.
  - intros Hmore. rewrite decide_False by done.
    match goal with
    | |- context [push result ?x] => destruct (push result x) as [vm'|] eqn:Epush
    end; [|done].
    simpl. apply push_shape in Epush as [_ ->]. simpl.
    do 2 f_equal. lia.
  - intros Hslots. by rewrite push_Some.
Qed.


Lemma return_unwinds_frame_witness :
  (∃ vm', exec OP_RETURN 1 (fetched_vm 7 counter)
          = Some (Next (frameCount (fetched_vm 7 counter) - 2) vm')) ∧
  (∃ vm', exec OP_RETURN 0 (fetched_vm 5 [print_sum])
          = Some (Return INTERPRET_OK vm')).
Proof.
  split.
  - destruct (return_unwinds_frame 1 (fetched_vm 7 counter)
                (OBJ_VAL (OBJ_CLOSURE 2)) (mkFrame 1 9 1) [2])
      as (objs' & _ & _ & _ & Hnext).
    + evaluated.
    + evaluated.
    + vm_compute. repeat constructor.
    + simpl. split; constructor.
    + intros a ->%list_elem_of_singleton _. vm_compute. eauto.
    + destruct Hnext as [Hnext Hpush].
      assert (H1 := Hnext ltac:(by vm_compute)).
      assert (H2 := Hpush ltac:(in_range)).
      rewrite H2 in H1. cbn [fmap option_fmap option_map] in H1.
      eexists. exact H1.
  - destruct (return_unwinds_frame 0 (fetched_vm 5 [print_sum])
                NIL_VAL (mkFrame 0 8 0) [])
      as (objs' & _ & _ & Hdone & _ & _).
    + evaluated.
    + evaluated.
    + vm_compute. constructor.
    + exact I.
    + by intros a ?%elem_of_nil.
    + eexists. apply (Hdone ltac:(evaluated) (OBJ_VAL (OBJ_CLOSURE 0))).
      evaluated.
Defined.

(** The two returns of the counter program's first call: [make] returns
    [inc] to the script with [x] closed on 0. *)
Example return_on_counter :
  match exec OP_RETURN 1 (fetched_vm 7 counter) with
  | Some (Next frame vm') =>
      frame = 0 ∧ frameCount vm' = 1 ∧ stackTop vm' = 2 ∧
      stack vm' !! 1 = Some (OBJ_VAL (OBJ_CLOSURE 2)) ∧
      openUpvalues vm' = [] ∧
      objUpvalues vm' = [mkUpvalue (ClosedPtr 0) (NUMBER_VAL 0)]
  | _ => False
  end.
Proof. vm_compute. repeat split. Qed.

(** * Further properties of the machine *)

(** ** What each step changes *)

(** Splits the first sequenced computation of [H] into its outcomes. *)
Ltac reduce_in H :=
  cbn [mbind option_bind fmap option_fmap option_map mjoin option_join
       fst snd] in H.

Ltac unbind H :=
  reduce_in H;
  repeat match type of H with
         | context [mbind _ ?m] =>
             let E := fresh "E" in
             let x := fresh "x" in
             destruct m as [x|] eqn:E;
             [try match type of x with (_ * _)%type => destruct x end|];
             reduce_in H
         | context [match ?m with _ => _ end] =>
             let E := fresh "E" in destruct m eqn:E; reduce_in H
         | context [if ?b then _ else _] =>
             let E := fresh "E" in destruct b eqn:E; reduce_in H
         end.

Lemma READ_SHORT_frames frame vm offset vm' :
  READ_SHORT frame vm = Some (offset, vm') →
  ∃ fs, vm' = set_frames fs vm.
Proof.
  unfold READ_SHORT. intros H. unbind H; try done.
  injection H as _ <-. eauto.
Qed.

Lemma add_ip_frames offset frame vm vm' :
  add_ip offset frame vm = Some vm' →
  ∃ fs, vm' = set_frames fs vm.
Proof.
  unfold add_ip. intros H. unbind H; try done. injection H as <-. eauto.
Qed.

Lemma runtimeError_shape message vm vm' :
  runtimeError message vm = Some vm' →
  ∃ trace, stackTrace (Z.to_nat (frameCount vm)) vm = Some trace ∧
           vm' = resetStack
                   (set_stderr (stderr vm +:+ message +:+ newline +:+ trace) vm).
Proof.
  unfold runtimeError. intros H.
  destruct (stackTrace (Z.to_nat (frameCount vm)) vm) as [trace|]; simpl in H;
    [|done].
  injection H as <-. eauto.
Qed.

Lemma closeUpvalues_loop_shape last chain : ∀ vm vm',
  closeUpvalues_loop last chain vm = Some vm' →
  ∃ chain' objs,
    vm' = set_openUpvalues chain' (set_objUpvalues objs vm) ∧
    length objs = length (objUpvalues vm).
Proof.
  induction chain as [|u next IH]; intros vm vm' H; simpl in H.
  - injection H as <-. exists [], (objUpvalues vm). by destruct vm.
  - unbind H; try done.
    + apply IH in H as (chain' & objs & -> & Hlen). exists chain', objs.
      split; [done|]. simpl in Hlen. by rewrite length_insert in Hlen.
    + injection H as <-. exists (u :: next), (objUpvalues vm). by destruct vm.
    + injection H as <-. exists (u :: next), (objUpvalues vm). by destruct vm.
Qed.

Lemma closeUpvalues_shape last vm vm' :
  closeUpvalues last vm = Some vm' →
  ∃ chain' objs,
    vm' = set_openUpvalues chain' (set_objUpvalues objs vm) ∧
    length objs = length (objUpvalues vm).
Proof. apply closeUpvalues_loop_shape. Qed.

Lemma captureUpvalue_shape local vm u vm' :
  captureUpvalue local vm = Some (u, vm') →
  ∃ chain' objs,
    vm' = set_openUpvalues chain' (set_objUpvalues objs vm).
Proof.
  unfold captureUpvalue, newUpvalue. intros H. unbind H; try done;
    injection H as _ <-; eauto.
  exists (openUpvalues vm), (objUpvalues vm). by destruct vm.
Qed.

Lemma store_shape p v vm vm' :
  store p v vm = Some vm' →
  ∃ cells objs,
    vm' = set_stack cells (set_objUpvalues objs vm) ∧
    length objs = length (objUpvalues vm).
Proof.
  destruct p; unfold store; intros H.
  - case_decide; [|done].
    injection H as <-. exists (<[slot := v]> (stack vm)), (objUpvalues vm).
    by destruct vm.
  - unbind H; try done. injection H as <-.
    exists (stack vm),
      (<[upvalue := mkUpvalue (location x) v]> (objUpvalues vm)).
    split; [by destruct vm|]. by rewrite length_insert.
Qed.

Lemma concatenate_shape vm vm' :
  concatenate vm = Some vm' →
  ∃ cells, vm' = set_stackTop (stackTop vm - 1) (set_stack cells vm).
Proof.
  unfold concatenate. intros H. unbind H; try done.
  apply pop_shape in E as (_ & _ & ->). apply pop_shape in E1 as (_ & _ & ->).
  apply push_shape in H as [_ ->]. eexists.
  unfold set_stackTop, set_stack; simpl. f_equal; first [lia | reflexivity].
Qed.

Lemma newClosure_shape function vm c vm' :
  newClosure function vm = Some (c, vm') →
  ∃ fn, objFunctions vm !! function = Some fn ∧
        c = length (objClosures vm) ∧
        vm' = set_objClosures
                (objClosures vm ++
                   [mkClosure function (replicate (Z.to_nat (upvalueCount fn)) None)])
                vm.
Proof.
  unfold newClosure. intros H. unbind H; try done.
  injection H as <- <-. eauto.
Qed.

Lemma fillUpvalues_shape count : ∀ i created frame vm vm',
  fillUpvalues count i created frame vm = Some vm' →
  ∃ fs chain objs cls,
    vm' = set_frames fs
            (set_openUpvalues chain
               (set_objUpvalues objs (set_objClosures cls vm))) ∧
    length cls = length (objClosures vm).
Proof.
  induction count as [|count IH]; intros i created frame vm vm' H; simpl in H.
  - injection H as <-.
    exists (frames vm), (openUpvalues vm), (objUpvalues vm), (objClosures vm).
    by destruct vm.
  - destruct (READ_BYTE frame vm) as [[isLocal vm1]|] eqn:E1; simpl in H; [|done].
    destruct (READ_BYTE frame vm1) as [[idx vm2]|] eqn:E2; simpl in H; [|done].
    apply READ_BYTE_frames in E1 as [fs1 ->].
    apply READ_BYTE_frames in E2 as [fs2 ->].
    destruct (frames _ !! frame) as [fr|] eqn:Efr; simpl in H; [|done].
    match type of H with
    | context [mbind _ ?m] => destruct m as [[captured vm3]|] eqn:E3; simpl in H
    end; [|done].
    assert (∃ chain objs,
              vm3 = set_openUpvalues chain
                      (set_objUpvalues objs
                         (set_frames fs2 (set_frames fs1 vm)))) as (chain & objs & ->).
    { case_decide.
      - unbind E3; try done. apply captureUpvalue_shape in E as (? & ? & ->).
        injection E3 as _ <-. eauto.
      - unbind E3; try done. injection E3 as _ <-.
        exists (openUpvalues vm), (objUpvalues vm). by destruct vm. }
    unbind H; try done.
    apply IH in H as (fs & chain' & objs' & cls & -> & Hlen).
    exists fs, chain', objs', cls. split; [done|].
    simpl in Hlen. by rewrite length_insert in Hlen.
Qed.

Lemma call_shape closure argCount vm ok vm' :
  call closure argCount vm = Some (ok, vm') →
  (ok = false ∧
   ∃ message, raises OP_CALL message ∧ runtimeError message vm = Some vm') ∨
  (ok = true ∧ frameCount vm ≠ FRAMES_MAX ∧
   vm' = set_frameCount (frameCount vm + 1)
           (set_frames
              (<[frameCount vm := mkFrame closure 0 (stackTop vm - argCount - 1)]>
                 (frames vm)) vm)).
Proof.
  unfold call. intros H. unbind H; try done; injection H as <- <-;
    first [ right; by eauto
          | left; split; [done|]; eexists; split; [|eassumption];
            first [by right; left | right; right; by eexists _, _] ].
Qed.

Lemma callValue_shape callee argCount vm ok vm' :
  callValue callee argCount vm = Some (ok, vm') →
  (ok = false ∧
   ∃ message, raises OP_CALL message ∧ runtimeError message vm = Some vm') ∨
  (ok = true ∧ frameCount vm ≠ FRAMES_MAX ∧
   ∃ c, callee = OBJ_VAL (OBJ_CLOSURE c) ∧
        vm' = set_frameCount (frameCount vm + 1)
                (set_frames
                   (<[frameCount vm := mkFrame c 0 (stackTop vm - argCount - 1)]>
                      (frames vm)) vm)) ∨
  (ok = true ∧
   ∃ n native, callee = OBJ_VAL (OBJ_NATIVE n) ∧
               objNatives vm !! n = Some native ∧
               push (native argCount (stackTop vm - argCount) (stack vm))
                    (set_stackTop (stackTop vm - (argCount + 1)) vm) = Some vm').
Proof.
  intros H.
  assert (Herr : (x ← runtimeError "Can only call functions and classes." vm;
                  Some (false, x)) = Some (ok, vm') →
                 ok = false ∧
                 ∃ message, raises OP_CALL message ∧
                            runtimeError message vm = Some vm').
  { intros H'. unbind H'; try done. injection H' as <- <-.
    split; [done|]. eexists. split; [by left | eassumption]. }
  destruct callee as [| | |[]]; simpl in H; try (left; by apply Herr).
  - unbind H; try done. injection H as <- <-. right. right. eauto 10.
  - apply call_shape in H as [?|(-> & ? & ->)]; [by left|].
    right. left. eauto 10.
Qed.

Tactic Notation "callValue_cases" "as" simple_intropattern(pat) :=
  match goal with
  | E : callValue _ _ _ = Some _ |- _ => apply callValue_shape in E as pat
  end.

Ltac shapes :=
  repeat match goal with
         | E : pop _ = Some (_, _) |- _ => apply pop_shape in E as (? & ? & ->)
         | E : push _ _ = Some _ |- _ => apply push_shape in E as [? ->]
         | E : READ_BYTE _ _ = Some (_, _) |- _ =>
             apply READ_BYTE_frames in E as [? ->]
         | E : READ_SHORT _ _ = Some (_, _) |- _ =>
             apply READ_SHORT_frames in E as [? ->]
         | E : READ_CONSTANT _ _ = Some (_, _) |- _ =>
             apply READ_CONSTANT_frames in E as [? ->]
         | E : READ_STRING _ _ = Some (_, _) |- _ =>
             apply READ_STRING_frames in E as [? ->]
         | E : add_ip _ _ _ = Some _ |- _ => apply add_ip_frames in E as [? ->]
         | E : closeUpvalues _ _ = Some _ |- _ =>
             apply closeUpvalues_shape in E as (? & ? & -> & ?)
         | E : store _ _ _ = Some _ |- _ =>
             apply store_shape in E as (? & ? & -> & ?)
         | E : concatenate _ = Some _ |- _ =>
             apply concatenate_shape in E as [? ->]
         | E : newClosure _ _ = Some (_, _) |- _ =>
             apply newClosure_shape in E as (? & ? & -> & ->)
         | E : fillUpvalues _ _ _ _ _ = Some _ |- _ =>
             apply fillUpvalues_shape in E as (? & ? & ? & ? & -> & ?)
         | E : runtimeError _ _ = Some _ |- _ =>
             apply runtimeError_shape in E as (? & ? & ->)
         end.

Lemma BINARY_OP_next {A} (valueType : A → Value) op frame vm frame' vm' :
  BINARY_OP valueType op frame vm = Some (Next frame' vm') →
  frame' = frame ∧
  ∃ cells, vm' = set_stackTop (stackTop vm - 1) (set_stack cells vm).
Proof.
  unfold BINARY_OP. intros H. unbind H; try done; shapes;
    injection H as <- <-; (split; [done|]); eexists;
    unfold push, set_stackTop, set_stack; simpl;
    f_equal; first [lia | reflexivity].
Qed.

(** An instruction after which the loop goes on has written nothing to the
    error stream. *)
Lemma exec_next_stderr instruction frame vm frame' vm' :
  exec instruction frame vm = Some (Next frame' vm') →
  stderr vm' = stderr vm ∧
  objFunctions vm' = objFunctions vm ∧
  objNatives vm' = objNatives vm.
Proof.
  destruct instruction; intros H;
    try (apply BINARY_OP_next in H as (_ & ? & ->); done);
    simpl in H; unbind H; try done; shapes;
    try (injection H as <- <-; done).
  callValue_cases as [[? _]|[(_ & _ & ? & _ & ->)|(_ & ? & ? & _ & _ & ?)]];
    try done; shapes; by injection H as <- <-.
Qed.

Lemma set_frames_id vm : set_frames (frames vm) vm = vm.
Proof. by destruct vm. Qed.

(** A return that is not [INTERPRET_OK] comes from [runtimeError] on the
    machine as the operands of the instruction left it. *)
Lemma exec_error_shape instruction frame vm r vm' :
  exec instruction frame vm = Some (Return r vm') →
  r ≠ INTERPRET_OK →
  ∃ fs message trace,
    raises instruction message ∧
    stackTrace (Z.to_nat (frameCount vm)) (set_frames fs vm) = Some trace ∧
    vm' = resetStack
            (set_stderr (stderr vm +:+ message +:+ newline +:+ trace)
               (set_frames fs vm)).
Proof.
  intros H Hr.
  destruct instruction;
    try (apply BINARY_OP_return in H as [_ H];
         apply runtimeError_shape in H as (trace & Htrace & ->);
         eexists (frames vm), _, trace; rewrite set_frames_id; by split);
    simpl in H; unbind H; try done; shapes; simpl in *;
    try (injection H as <- <-); try done;
    try (eexists _, _, _; (split; [|split; [eassumption|reflexivity]]);
         first [reflexivity | by eexists]);
    try (eexists (frames vm), _, _; rewrite set_frames_id;
         (split; [|split; [eassumption|reflexivity]]);
         first [reflexivity | by eexists]).
  - (* OP_SET_GLOBAL on an unbound name: the binding made is removed *)
    apply bool_decide_eq_true_1 in E2.
    rewrite (delete_insert_id _ _ _ E2) in *.
    eexists x1, _, _. split; [by eexists|]. split; [|by destruct vm].
    erewrite stackTrace_only_frames; [exact H0|done..].
  - callValue_cases as [[_ (message & Hmessage & Herr)]|[(? & _)|(? & _)]];
      try done.
    shapes. eexists _, _, _. split; [exact Hmessage|]. split; [eassumption|done].
Qed.

(** [INTERPRET_OK] is returned by [OP_RETURN] alone, from the last frame. *)
Lemma exec_ok_shape instruction frame vm vm' :
  exec instruction frame vm = Some (Return INTERPRET_OK vm') →
  instruction = OP_RETURN ∧ frameCount vm = 1 ∧ frameCount vm' = 0.
Proof.
  intros H.
  destruct instruction;
    try (apply BINARY_OP_return in H as [? _]; done);
    simpl in H; unbind H; try done; shapes; simpl in *;
    try (injection H as <-); try done.
  all: repeat split; try done; lia.
Qed.

(** ** The frame count while [run] is at work *)

Lemma exec_running instruction frame vm frame' vm' :
  exec instruction frame vm = Some (Next frame' vm') →
  running frame vm →
  running frame' vm'.
Proof.
  unfold running. intros H [Hcount ->].
  destruct instruction;
    try (apply BINARY_OP_next in H as (-> & ? & ->); done);
    simpl in H; unbind H; try done; shapes; simpl in *;
    try (injection H as <- <-; simpl; done).
  - callValue_cases as [[? _]|[(_ & ? & ? & _ & ->)|(_ & ? & ? & _ & _ & ?)]];
      try done; shapes; injection H as <- <-; simpl in *;
      unfold FRAMES_MAX in *; split; lia.
  - injection H as <- <-. simpl. split; lia.
  - injection H as <- <-. simpl. split; lia.
Qed.

Lemma READ_BYTE_running frame vm byte vm' frame' :
  READ_BYTE frame vm = Some (byte, vm') →
  running frame' vm → running frame' vm'.
Proof. intros H. by apply READ_BYTE_frames in H as [? ->]. Qed.

(** ** The order of the open-upvalue list *)

Lemma resetStack_openUpvaluesOrdered vm : openUpvaluesOrdered (resetStack vm).
Proof. exists []. split; [constructor | exact I]. Qed.

Lemma closeUpvalues_loop_ordered last chain : ∀ addrs vm vm',
  pointsTo (objUpvalues vm) chain addrs →
  descending addrs →
  closeUpvalues_loop last chain vm = Some vm' →
  openUpvaluesOrdered vm'.
Proof.
  induction chain as [|u next IH]; intros addrs vm vm' Hpts Hdesc H.
  - injection H as <-. exists []. split; [constructor | exact I].
  - inversion Hpts as [|? a ? rest Hua Hrest]; subst.
    destruct Hdesc as [Hlt Hdesc]. cbn [closeUpvalues_loop] in H.
    destruct (objUpvalues vm !! u) as [o|] eqn:Ho; simpl in H; [|done].
    destruct (ptr_ge (location o) last) as [[]|]; simpl in H; [| |done].
    + destruct (load (location o) vm) as [v|]; simpl in H; [|done].
      eapply (IH rest); [|exact Hdesc|exact H]. simpl.
      by eapply pointsTo_insert_above.
    + injection H as <-. exists (a :: rest). by split.
Qed.

Lemma closeUpvalues_ordered last vm vm' :
  openUpvaluesOrdered vm →
  closeUpvalues last vm = Some vm' →
  openUpvaluesOrdered vm'.
Proof.
  intros (addrs & Hpts & Hdesc). by apply closeUpvalues_loop_ordered with addrs.
Qed.

Lemma captureUpvalue_ordered local vm u vm' :
  openUpvaluesOrdered vm →
  captureUpvalue local vm = Some (u, vm') →
  openUpvaluesOrdered vm'.
Proof.
  intros (addrs & Hpts & Hdesc) H.
  destruct (captureUpvalue_walk_spec _ local _ _ Hpts Hdesc)
    as (walked & rest & higher & lower & Hwalk & Hchain & -> & Hhi & Hlo & Hgt & Hle).
  pose proof Hdesc as Hdesc'.
  apply descending_app in Hdesc' as (Hd1 & Hd2 & Hcross).
  assert (Hnew : Forall (λ a, a < local) lower →
            openUpvaluesOrdered
              (set_openUpvalues (walked ++ length (objUpvalues vm) :: rest)
                 (set_objUpvalues
                    (objUpvalues vm ++ [mkUpvalue (StackPtr local) NIL_VAL]) vm))).
  { intros Hlt. exists (higher ++ local :: lower). simpl. split.
    - apply Forall2_app; [by apply pointsTo_app_alloc|].
      constructor; [|by apply pointsTo_app_alloc].
      unfold openSlot. by rewrite lookup_app_r, Nat.sub_diag.
    - apply descending_app. split; [done|]. split; [by split|].
      intros x y Hx [->|Hy]%elem_of_cons.
      + rewrite Forall_forall in Hgt. by apply Hgt.
      + by apply Hcross. }
  unfold captureUpvalue in H. rewrite Hwalk in H. simpl in H.
  destruct Hlo as [|u0 a0 rest lower Hu0 Hlo].
  - injection H as _ <-. apply Hnew. constructor.
  - pose proof Hu0 as Hu0'. unfold openSlot in Hu0'.
    destruct (objUpvalues vm !! u0) as [o|] eqn:Ho; simpl in Hu0'; [|done].
    destruct (location o) as [a'|] eqn:Hloc; [|done].
    injection Hu0' as ->. simpl in H. rewrite Hloc in H. simpl in H.
    apply Forall_cons in Hle as [Ha0 Hle].
    case_bool_decide as Heq.
    + injection H as _ <-. by exists (higher ++ a0 :: lower).
    + injection H as _ <-. apply Hnew.
      constructor; [lia|]. destruct Hd2 as [Hd2 _].
      eapply Forall_impl; [exact Hd2|]. simpl. intros; lia.
Qed.

Lemma store_ordered p v vm vm' :
  openUpvaluesOrdered vm → store p v vm = Some vm' → openUpvaluesOrdered vm'.
Proof.
  intros (addrs & Hpts & Hdesc) H. destruct p as [a|u]; unfold store in H.
  - case_decide; [|done]. injection H as <-. by exists addrs.
  - destruct (objUpvalues vm !! u) as [o|] eqn:Ho; simpl in H; [|done].
    injection H as <-. exists addrs. split; [|done]. simpl.
    eapply Forall2_impl; [exact Hpts|]. intros u' a Hu'. unfold openSlot in *.
    destruct (decide (u = u')) as [<-|Hne].
    + rewrite list_lookup_insert_eq by (by eapply lookup_lt_Some).
      by rewrite Ho in Hu'.
    + by rewrite list_lookup_insert_ne.
Qed.

Lemma fillUpvalues_ordered count : ∀ i created frame vm vm',
  openUpvaluesOrdered vm →
  fillUpvalues count i created frame vm = Some vm' →
  openUpvaluesOrdered vm'.
Proof.
  induction count as [|count IH]; intros i created frame vm vm' Hord H;
    simpl in H.
  - by injection H as <-.
  - destruct (READ_BYTE frame vm) as [[isLocal vm1]|] eqn:E1; simpl in H; [|done].
    destruct (READ_BYTE frame vm1) as [[idx vm2]|] eqn:E2; simpl in H; [|done].
    apply READ_BYTE_frames in E1 as [fs1 ->].
    apply READ_BYTE_frames in E2 as [fs2 ->].
    destruct (frames _ !! frame) as [fr|] eqn:Efr; simpl in H; [|done].
    match type of H with
    | context [mbind _ ?m] => destruct m as [[captured vm3]|] eqn:E3; simpl in H
    end; [|done].
    assert (openUpvaluesOrdered vm3) as Hord3.
    { case_decide.
      - unbind E3; try done. injection E3 as _ <-.
        eapply captureUpvalue_ordered; [|exact E]. exact Hord.
      - unbind E3; try done. by injection E3 as _ <-. }
    unbind H; try done. eapply IH; [|exact H]. exact Hord3.
Qed.

Lemma exec_ordered instruction frame vm outcome :
  openUpvaluesOrdered vm →
  exec instruction frame vm = Some outcome →
  openUpvaluesOrdered (outcome_vm outcome).
Proof.
  intros Hord H.
  assert (Hclose : ∀ last vm1 vm2,
            closeUpvalues last vm1 = Some vm2 →
            openUpvaluesOrdered vm1 → openUpvaluesOrdered vm2)
    by (intros; by eapply closeUpvalues_ordered).
  destruct outcome as [frame' vm'|r vm'].
  2:{ assert (r = INTERPRET_OK ∨ r ≠ INTERPRET_OK) as [->|Hr]
        by (destruct r; auto).
      - destruct (exec_ok_shape _ _ _ _ H) as (-> & _ & _).
        simpl in H. unbind H; try done;
          match goal with
          | E : closeUpvalues _ _ = Some _ |- _ =>
              apply Hclose in E; [|by shapes]
          end;
          shapes; by injection H as <-.
      - destruct (exec_error_shape _ _ _ _ _ H Hr) as (? & ? & ? & _ & _ & ->).
        apply resetStack_openUpvaluesOrdered. }
  destruct instruction;
    try (apply BINARY_OP_next in H as (_ & ? & ->); exact Hord);
    simpl in H; unbind H; try done;
    try match goal with
        | E : closeUpvalues _ _ = Some _ |- _ =>
            apply Hclose in E; [|by shapes]
        | E : store _ _ _ = Some _ |- _ =>
            eapply store_ordered in E; [|by shapes]
        | E : fillUpvalues _ _ _ _ _ = Some _ |- _ =>
            eapply fillUpvalues_ordered in E; [|by shapes]
        end;
    shapes;
    try (injection H as <- <-; first [exact Hord | assumption]).
  (* OP_CALL *)
  callValue_cases as [[? _]|[(_ & _ & ? & _ & ->)|(_ & ? & ? & _ & _ & ?)]];
    try done; shapes; injection H as <- <-; exact Hord.
Qed.

(** ** How [run] ends *)

(** X2: however [run] returns, no frame is left active.  When it returns
    [INTERPRET_OK] nothing was written to the error stream.  When it returns
    anything else the operand stack and the open-upvalue list are empty, and
    the error stream has grown by one report: the run ended on an
    instruction, executed on a machine that had reported nothing yet, and
    the report is a message of that instruction followed by the stack trace
    over the frames that were active at that instruction. *)
Theorem run_returns_with_no_frame (fuel : nat) (frame : Z) (vm vm' : VM)
    (r : InterpretResult) :
  run_loop fuel frame vm = Exited r vm' →
  frameCount vm' = 0 ∧
  (r = INTERPRET_OK → stderr vm' = stderr vm) ∧
  (r ≠ INTERPRET_OK →
   stackTop vm' = 0 ∧ openUpvalues vm' = [] ∧
   ∃ instruction frame1 vm1 message trace,
     exec instruction frame1 vm1 = Some (Return r vm') ∧
     stderr vm1 = stderr vm ∧
     (running frame vm → running frame1 vm1) ∧
     raises instruction message ∧
     stackTrace (Z.to_nat (frameCount vm1)) vm' = Some trace ∧
     stderr vm' = stderr vm +:+ message +:+ newline +:+ trace).
Proof.
  revert frame vm.
  induction fuel as [|fuel IH]; intros frame vm H; simpl in H; [done|].
  destruct (READ_BYTE frame vm) as [[byte vm1]|] eqn:Eread; [|done].
  apply READ_BYTE_frames in Eread as [fs ->].
  destruct (decode byte) as [instruction|].
  2:{ apply IH in H as (H1 & H2 & H3). exact (conj H1 (conj H2 H3)). }
  destruct (exec instruction frame (set_frames fs vm)) as [[frame1 vm1|r1 vm1]|]
    eqn:Eexec; [| |done].
  - pose proof (exec_next_stderr _ _ _ _ _ Eexec) as (Herr & _ & _).
    apply IH in H as (H1 & H2 & H3). simpl in Herr. rewrite <- Herr.
    split; [exact H1|]. split; [exact H2|].
    intros Hr. destruct (H3 Hr)
      as (Htop & Hopen & i & f & m & message & trace & Hlast & Hquiet & Hrun & Hrest).
    split; [exact Htop|]. split; [exact Hopen|].
    exists i, f, m, message, trace. split; [exact Hlast|].
    split; [by rewrite Hquiet|]. split; [|exact Hrest].
    intros Hrunning. apply Hrun. by eapply exec_running.
  - injection H as -> ->.
    assert (r = INTERPRET_OK ∨ r ≠ INTERPRET_OK) as [->|Hr]
      by (destruct r; auto).
    + split; [by apply exec_ok_shape in Eexec as (_ & _ & ?)|].
      split; [|done]. intros _.
      destruct (exec_ok_shape _ _ _ _ Eexec) as (-> & _ & _).
      simpl in Eexec. unbind Eexec; try done; shapes;
        by injection Eexec as <-.
    + destruct (exec_error_shape _ _ _ _ _ Eexec Hr)
        as (fs' & message & trace & Hmessage & Htrace & Hvm').
      split; [by rewrite Hvm'|]. split; [done|]. intros _.
      split; [by rewrite Hvm'|]. split; [by rewrite Hvm'|].
      exists instruction, frame, (set_frames fs vm), message, trace.
      split; [exact Eexec|]. split; [done|]. split; [done|].
      split; [exact Hmessage|]. split; [|by rewrite Hvm'].
      rewrite <- Htrace. apply stackTrace_only_frames; by rewrite Hvm'.
Qed.

Lemma run_returns_with_no_frame_witness :
  ∃ vm', run_loop 10 0 (entered_vm [print_mixed])
         = Exited INTERPRET_COMPILE_ERROR vm' ∧
         frameCount vm' = 0 ∧ stackTop vm' = 0 ∧
         stderr vm' = "Operands must be two numbers or two strings." +:+ newline +:+
                      "[line 1] in script" +:+ newline.
Proof.
  eexists. split; [evaluated|].
  edestruct (run_returns_with_no_frame 10 0 (entered_vm [print_mixed]))
    as (Hcount & _ & Herr); [evaluated|].
  split; [exact Hcount|]. split; [by apply Herr|]. evaluated.
Defined.

(** X3: while [run] is at work the frame count stays between 1 and
    [FRAMES_MAX] and the variable [frame] designates the topmost frame,
    however many instructions are executed. *)
Theorem turns_keep_running (n : nat) (frame : Z) (vm : VM) (frame' : Z)
    (vm' : VM) :
  running frame vm →
  turns n frame vm = Some (frame', vm') →
  running frame' vm'.
Proof.
  revert frame vm. induction n as [|n IH]; intros frame vm Hrun H; simpl in H.
  - by injection H as <- <-.
  - destruct (READ_BYTE frame vm) as [[byte vm1]|] eqn:Eread; simpl in H; [|done].
    destruct (decode byte) as [instruction|]; simpl in H; [|done].
    destruct (exec instruction frame vm1) as [[frame1 vm2|]|] eqn:Eexec;
      try done.
    eapply IH; [|exact H].
    eapply exec_running; [exact Eexec|].
    by eapply READ_BYTE_running.
Qed.

Lemma turns_keep_running_witness :
  ∃ frame' vm', turns 129 0 (entered_vm call_forever) = Some (frame', vm') ∧
                running frame' vm'.
Proof.
  eexists _, _. split; [evaluated|].
  eapply (turns_keep_running 129 0 (entered_vm call_forever)); [|evaluated].
  by vm_compute.
Defined.

(** X4: every instruction keeps the open-upvalue list in order, so [run],
    started on a machine whose list is in order, returns with one whose list
    is in order. *)
Theorem run_keeps_open_upvalues_ordered (fuel : nat) (frame : Z) (vm vm' : VM)
    (r : InterpretResult) :
  openUpvaluesOrdered vm →
  run_loop fuel frame vm = Exited r vm' →
  openUpvaluesOrdered vm'.
Proof.
  revert frame vm.
  induction fuel as [|fuel IH]; intros frame vm Hord H; simpl in H; [done|].
  destruct (READ_BYTE frame vm) as [[byte vm1]|] eqn:Eread; [|done].
  apply READ_BYTE_frames in Eread as [fs ->].
  destruct (decode byte) as [instruction|]; [|by eapply IH; [|exact H]].
  destruct (exec instruction frame (set_frames fs vm)) as [outcome|] eqn:Eexec;
    [|done].
  apply exec_ordered in Eexec; [|exact Hord].
  destruct outcome as [frame1 vm1|r1 vm1].
  - by eapply IH; [|exact H].
  - by injection H as _ <-.
Qed.

Lemma run_keeps_open_upvalues_ordered_witness :
  ∃ vm', run_loop 100 0 (entered_vm counter) = Exited INTERPRET_OK vm' ∧
         openUpvaluesOrdered vm'.
Proof.
  eexists. split; [evaluated|].
  eapply (run_keeps_open_upvalues_ordered 100 0 (entered_vm counter));
    [|evaluated].
  exists []. split; [vm_compute; constructor | exact I].
Defined.

(** ** Errors leave the rest of the machine alone *)

(** X5: an instruction that makes [run] return an error appends one report
    to the error stream, a message of that instruction followed by the stack
    trace over the frames active before it, resets the operand stack top,
    the frame count and the open-upvalue list, and touches nothing else: the
    globals, the cells of the operand stack, the output stream and every
    heap object are as before the instruction ([OP_SET_GLOBAL] on an unbound
    name removes the binding it made). *)
Theorem error_changes_only_the_error_stream (instruction : OpCode) (frame : Z)
    (vm vm' : VM) (r : InterpretResult) :
  exec instruction frame vm = Some (Return r vm') →
  r ≠ INTERPRET_OK →
  stackTop vm' = 0 ∧ frameCount vm' = 0 ∧ openUpvalues vm' = [] ∧
  globals vm' = globals vm ∧
  stack vm' = stack vm ∧
  stdout vm' = stdout vm ∧
  objFunctions vm' = objFunctions vm ∧
  objNatives vm' = objNatives vm ∧
  objClosures vm' = objClosures vm ∧
  objUpvalues vm' = objUpvalues vm ∧
  ∃ message trace,
    raises instruction message ∧
    stackTrace (Z.to_nat (frameCount vm)) vm' = Some trace ∧
    stderr vm' = stderr vm +:+ message +:+ newline +:+ trace.
Proof.
  intros H Hr.
  destruct (exec_error_shape _ _ _ _ _ H Hr)
    as (fs & message & trace & Hmessage & Htrace & ->).
  simpl. do 10 (split; [done|]). exists message, trace.
  split; [exact Hmessage|]. split; [|done].
  rewrite <- Htrace. by apply stackTrace_only_frames.
Qed.

Lemma error_changes_only_the_error_stream_witness :
  ∃ vm', exec OP_SET_GLOBAL 0 (fetched_vm 1 [assign_undefined])
         = Some (Return INTERPRET_RUNTIME_ERROR vm') ∧
         globals vm' = globals (fetched_vm 1 [assign_undefined]) ∧
         stack vm' = stack (fetched_vm 1 [assign_undefined]) ∧
         stderr vm' = "Undefined variable 'undefined'." +:+ newline +:+
                      "[line 1] in script" +:+ newline.
Proof.
  eexists. split; [evaluated|].
  edestruct (error_changes_only_the_error_stream OP_SET_GLOBAL 0
               (fetched_vm 1 [assign_undefined]))
    as (_ & _ & _ & Hglobals & Hstack & _); [evaluated | done |].
  split; [exact Hglobals|]. split; [exact Hstack|]. evaluated.
Defined.

Lemma exec_return_cases_witness :
  match exec OP_CALL 0 (fetched_vm 1 call_nil) with
  | Some (Return r _) => r = INTERPRET_RUNTIME_ERROR
  | _ => False
  end.
Proof.
  destruct (exec OP_CALL 0 (fetched_vm 1 call_nil)) as [[|r vm']|] eqn:E;
    [vm_compute in E; discriminate| |vm_compute in E; discriminate].
  pose proof (exec_return_cases _ _ _ _ _ E) as Hcases.
  destruct r; [discriminate Hcases| discriminate Hcases | reflexivity].
Defined.

(** ** The operand stack *)

(** X6: the operand stack is last in, first out, within the [STACK_MAX]
    cells of [vm.stack].  With room for two values, after two pushes
    [peek 0] and [peek 1] read the second and the first value, two pops
    return them in that order and leave the stack top and the cells below it
    as they were; a push leaves what [peek] saw one place deeper.  With the
    stack top at [STACK_MAX] a push, and with the stack top at the bottom a
    pop or a peek, is an access outside the array: not defined. *)
Theorem stack_is_lifo (v w : Value) (vm : VM) :
  (0 ≤ stackTop vm → stackTop vm + 2 ≤ STACK_MAX →
   ∃ vm1 vm2,
     push v vm = Some vm1 ∧ push w vm1 = Some vm2 ∧
     peek 0 vm2 = Some w ∧
     peek 1 vm2 = Some v ∧
     (∀ distance, 0 ≤ distance → peek (distance + 1) vm1 = peek distance vm) ∧
     ∃ vm1' vm0,
       pop vm2 = Some (w, vm1') ∧ pop vm1' = Some (v, vm0) ∧
       stackTop vm0 = stackTop vm ∧
       (∀ i, i < stackTop vm → stack vm0 !! i = stack vm !! i)) ∧
  (STACK_MAX ≤ stackTop vm → push v vm = None) ∧
  (stackTop vm ≤ 0 → pop vm = None ∧ ∀ distance, 0 ≤ distance → peek distance vm = None).
Proof.
  split; [|split].
  - intros Hbottom Hroom.
    set (vm1 := set_stackTop (stackTop vm + 1)
                  (set_stack (<[stackTop vm := v]> (stack vm)) vm)).
    set (vm2 := set_stackTop (stackTop vm1 + 1)
                  (set_stack (<[stackTop vm1 := w]> (stack vm1)) vm1)).
    assert (Hpeek0 : peek 0 vm2 = Some w).
    { apply peek_shape. simpl. split; [lia|].
      replace (stackTop vm + 1 + 1 - 1 - 0) with (stackTop vm + 1) by lia.
      apply lookup_insert_eq. }
    assert (Hpeek1 : peek 1 vm2 = Some v).
    { apply peek_shape. simpl. split; [lia|].
      replace (stackTop vm + 1 + 1 - 1 - 1) with (stackTop vm) by lia.
      rewrite lookup_insert_ne by lia. apply lookup_insert_eq. }
    exists vm1, vm2. split; [by apply push_Some; lia|].
    split; [by apply push_Some; simpl; lia|].
    split; [exact Hpeek0|]. split; [exact Hpeek1|]. split.
    { intros distance Hd. unfold peek, load. simpl.
      replace (stackTop vm + 1 - 1 - (distance + 1))
        with (stackTop vm - 1 - distance) by lia.
      case_decide; [|done]. by rewrite lookup_insert_ne by lia. }
    destruct (peek_peek_pop_pop _ _ _ Hpeek0 Hpeek1) as [Hpop0 Hpop1].
    eexists _, _. split; [exact Hpop0|]. split; [exact Hpop1|]. simpl.
    split; [lia|]. intros i Hi. by rewrite !lookup_insert_ne by lia.
  - intros Hfull. apply push_None. lia.
  - intros Hempty. split.
    + destruct (pop vm) as [[x vm']|] eqn:E; [|done].
      apply pop_shape in E as (Htop & _). lia.
    + intros distance Hd. destruct (peek distance vm) as [x|] eqn:E; [|done].
      apply peek_shape in E as (Htop & _). lia.
Qed.

Lemma stack_is_lifo_witness :
  ∃ vm1 vm2,
    push (NUMBER_VAL 1) (fetched_vm 0 [print_sum]) = Some vm1 ∧
    push (NUMBER_VAL 2) vm1 = Some vm2 ∧
    peek 0 vm2 = Some (NUMBER_VAL 2) ∧
    peek 1 vm2 = Some (NUMBER_VAL 1).
Proof.
  destruct (proj1 (stack_is_lifo (NUMBER_VAL 1) (NUMBER_VAL 2)
                     (fetched_vm 0 [print_sum])))
    as (vm1 & vm2 & H1 & H2 & H3 & H4 & _);
    [vm_compute; discriminate | vm_compute; discriminate |].
  exists vm1, vm2. split; [exact H1|]. split; [exact H2|].
  split; [exact H3 | exact H4].
Defined.

(** ** Arithmetic and comparison *)

Lemma BINARY_OP_numbers {A} (valueType : A → Value) op frame vm a b :
  peek 0 vm = Some (NUMBER_VAL b) →
  peek 1 vm = Some (NUMBER_VAL a) →
  BINARY_OP valueType op frame vm =
    Some (Next frame
            (set_stackTop (stackTop vm - 1)
               (set_stack (<[stackTop vm - 2 := valueType (op a b)]> (stack vm))
                  vm))).
Proof.
  intros H0 H1. destruct (peek_peek_pop_pop _ _ _ H0 H1) as [Hpop0 Hpop1].
  unfold BINARY_OP, both. rewrite H0. simpl. rewrite H1. simpl.
  rewrite Hpop0. simpl. rewrite Hpop1. simpl.
  by rewrite (two_pops_then_push _ _ _ _ H0 H1).
Qed.

(** X7: with two numbers on top of the stack, the one pushed first being the
    left operand [a] and the top one the right operand [b], the arithmetic and
    comparison instructions replace the two by [a - b], [a * b], [a / b],
    [a > b] and [a < b]: the result is pushed with the stack top two cells
    down, where there is room for it. *)
Theorem binary_instructions_on_numbers (frame : Z) (vm : VM) (a b : float) :
  peek 0 vm = Some (NUMBER_VAL b) →
  peek 1 vm = Some (NUMBER_VAL a) →
  ∃ pushed : Value → VM,
    (∀ v, push v (set_stackTop (stackTop vm - 2) vm) = Some (pushed v)) ∧
    (∀ v, peek 0 (pushed v) = Some v ∧ stackTop (pushed v) = stackTop vm - 1) ∧
    let result v := Some (Next frame (pushed v)) in
    exec OP_SUBTRACT frame vm = result (NUMBER_VAL (PrimFloat.sub a b)) ∧
    exec OP_MULTIPLY frame vm = result (NUMBER_VAL (PrimFloat.mul a b)) ∧
    exec OP_DIVIDE frame vm = result (NUMBER_VAL (PrimFloat.div a b)) ∧
    exec OP_GREATER frame vm = result (BOOL_VAL (PrimFloat.ltb b a)) ∧
    exec OP_LESS frame vm = result (BOOL_VAL (PrimFloat.ltb a b)).
Proof.
  intros H0 H1.
  exists (λ v, set_stackTop (stackTop vm - 1)
                 (set_stack (<[stackTop vm - 2 := v]> (stack vm)) vm)).
  split; [intros v; by eapply two_pops_then_push|]. split.
  { intros v. split; [|done]. apply peek_shape. simpl.
    apply peek_shape in H1 as [H1 _].
    replace (stackTop vm - 1 - 1 - 0) with (stackTop vm - 2) by lia.
    split; [lia|]. apply lookup_insert_eq. }
  simpl. repeat split.
  - exact (BINARY_OP_numbers NUMBER_VAL PrimFloat.sub frame vm a b H0 H1).
  - exact (BINARY_OP_numbers NUMBER_VAL PrimFloat.mul frame vm a b H0 H1).
  - exact (BINARY_OP_numbers NUMBER_VAL PrimFloat.div frame vm a b H0 H1).
  - exact (BINARY_OP_numbers BOOL_VAL (λ x y, PrimFloat.ltb y x) frame vm a b
             H0 H1).
  - exact (BINARY_OP_numbers BOOL_VAL (λ x y, PrimFloat.ltb x y) frame vm a b
             H0 H1).
Qed.

Lemma binary_instructions_on_numbers_witness :
  ∃ vm', exec OP_DIVIDE 0 (fetched_vm 2 [print_sum]) = Some (Next 0 vm') ∧
         peek 0 vm' = Some (NUMBER_VAL 0.5).
Proof.
  edestruct (binary_instructions_on_numbers 0 (fetched_vm 2 [print_sum]) 1 2)
    as (pushed & _ & Hpeek & _ & _ & Hdiv & _); [evaluated ..|].
  eexists. split; [exact Hdiv|]. apply Hpeek.
Defined.



(** X9: [OP_NEGATE] replaces a number on top of the stack by its opposite,
    pushed in the cell the number was popped from; on any other value it
    reports "Operand must be a number." and [run] returns
    [INTERPRET_RUNTIME_ERROR]. *)
Theorem negate_number_or_error (frame : Z) (vm : VM) (v : Value) :
  peek 0 vm = Some v →
  (∀ d, v = NUMBER_VAL d →
        ∃ vm', push (NUMBER_VAL (PrimFloat.opp d))
                    (set_stackTop (stackTop vm - 1) vm) = Some vm' ∧
               exec OP_NEGATE frame vm = Some (Next frame vm') ∧
               peek 0 vm' = Some (NUMBER_VAL (PrimFloat.opp d)) ∧
               stackTop vm' = stackTop vm) ∧
  (∀ trace, IS_NUMBER v = false →
            stackTrace (Z.to_nat (frameCount vm)) vm = Some trace →
            exec OP_NEGATE frame vm =
              Some (Return INTERPRET_RUNTIME_ERROR
                      (resetStack
                         (set_stderr (stderr vm +:+ "Operand must be a number." +:+
                                      newline +:+ trace) vm)))).
Proof.
  intros Hpeek. split.
  - intros d ->.
    pose proof (pop_then_push _ _ _ (NUMBER_VAL (PrimFloat.opp d))
                  (peek_0_pop _ _ Hpeek)) as Hpush.
    eexists. split; [exact Hpush|]. split.
    { simpl. rewrite Hpeek. simpl. rewrite (peek_0_pop _ _ Hpeek). simpl.
      by rewrite Hpush. }
    split; [|done]. apply peek_shape in Hpeek as [Htop _].
    apply peek_shape. simpl. split; [done|].
    replace (stackTop vm - 1 - 0) with (stackTop vm - 1) by lia.
    apply lookup_insert_eq.
  - intros trace Hv Htrace. simpl. rewrite Hpeek. simpl. rewrite Hv. simpl.
    by rewrite (runtimeError_traced _ _ trace Htrace).
Qed.

Lemma negate_number_or_error_witness :
  ∃ vm', exec OP_NEGATE 0 (fetched_vm 1 [print_sum]) = Some (Next 0 vm') ∧
         peek 0 vm' = Some (NUMBER_VAL (-1)).
Proof.
  edestruct (negate_number_or_error 0 (fetched_vm 1 [print_sum]) (NUMBER_VAL 1))
    as [Hnumber _]; [evaluated|].
  destruct (Hnumber 1%float eq_refl) as (vm' & _ & Hexec & Hpeek & _).
  exists vm'. split; [exact Hexec | exact Hpeek].
Defined.

(** ** Jumps *)

Lemma big_endian_16 hi lo :
  0 ≤ hi < 256 → 0 ≤ lo < 256 →
  Z.lor (Z.shiftl hi 8) lo mod 65536 = hi * 256 + lo.
Proof.
  intros Hhi Hlo.
  assert (Hdisjoint : Z.land (Z.shiftl hi 8) lo = 0).
  { apply Z.bits_inj'. intros n Hn.
    rewrite Z.land_spec, Z.bits_0.
    destruct (decide (n < 8)) as [Hsmall|Hbig].
    - rewrite Z.shiftl_spec_low by lia. done.
    - rewrite (Z.bits_above_log2 lo n); [apply andb_false_r|lia|].
      destruct (decide (lo = 0)) as [->|Hpos]; [simpl; lia|].
      apply Z.log2_lt_pow2; [lia|].
      apply Z.lt_le_trans with (2 ^ 8); [lia|].
      apply Z.pow_le_mono_r; lia. }
  rewrite <- Z.lxor_lor by exact Hdisjoint.
  rewrite <- Z.add_nocarry_lxor by exact Hdisjoint.
  rewrite Z.shiftl_mul_pow2 by lia.
  change (2 ^ 8) with 256. apply Z.mod_small. lia.
Qed.

(** X10: [READ_SHORT] reads the two bytes at [ip] as a 16-bit number, most
    significant byte first, and moves [ip] past them. *)
Theorem READ_SHORT_is_big_endian (frame : Z) (vm : VM) (fr : CallFrame)
    (fn : ObjFunction) (hi lo : Z) :
  frames vm !! frame = Some fr →
  frameFunction fr vm = Some fn →
  index (code (chunk fn)) (ip fr) = Some hi →
  index (code (chunk fn)) (ip fr + 1) = Some lo →
  0 ≤ hi < 256 → 0 ≤ lo < 256 →
  READ_SHORT frame vm =
    Some (hi * 256 + lo,
          set_frames (<[frame := mkFrame (closure fr) (ip fr + 2) (slots fr)]>
                        (frames vm)) vm) ∧
  0 ≤ hi * 256 + lo < 65536.
Proof.
  intros Hfr Hfn Hhi Hlo Hhi_range Hlo_range. split; [|lia].
  unfold READ_SHORT. rewrite Hfr. simpl. rewrite Hfn. simpl.
  replace (ip fr + 2 - 2) with (ip fr) by lia.
  replace (ip fr + 2 - 1) with (ip fr + 1) by lia.
  rewrite Hhi. simpl. rewrite Hlo. simpl.
  by rewrite big_endian_16.
Qed.

Lemma READ_SHORT_is_big_endian_witness :
  (fst <$> READ_SHORT 0 (fetched_vm 1 [jump_sample])) = Some 258.
Proof.
  edestruct (READ_SHORT_is_big_endian 0 (fetched_vm 1 [jump_sample])
               (mkFrame 0 2 0) jump_sample 1 2) as [Hread _];
    [evaluated .. | lia | lia |].
  rewrite Hread. reflexivity.
Defined.

(** X11: with [offset] the operand read by [READ_SHORT], [OP_JUMP] moves [ip]
    forward by [offset] and [OP_LOOP] backward by [offset], counted from the
    byte after the operand; [OP_JUMP_IF_FALSE] jumps like [OP_JUMP] when the
    top of the stack is falsey and falls through otherwise.  None of them
    pushes or pops: the condition stays on the stack. *)
Theorem jumps_move_ip (frame : Z) (vm vm1 : VM) (offset : Z) (fr : CallFrame) :
  READ_SHORT frame vm = Some (offset, vm1) →
  frames vm1 !! frame = Some fr →
  let moved delta :=
    set_frames (<[frame := mkFrame (closure fr) (ip fr + delta) (slots fr)]>
                  (frames vm1)) vm1 in
  exec OP_JUMP frame vm = Some (Next frame (moved offset)) ∧
  exec OP_LOOP frame vm = Some (Next frame (moved (- offset))) ∧
  (∀ v, peek 0 vm = Some v →
        exec OP_JUMP_IF_FALSE frame vm =
          Some (Next frame (if isFalsey v then moved offset else vm1))) ∧
  (∀ delta, stack (moved delta) = stack vm ∧
            stackTop (moved delta) = stackTop vm).
Proof.
  intros Hread Hfr. simpl.
  destruct (READ_SHORT_frames _ _ _ _ Hread) as [fs Hvm1].
  split; [|split; [|split]].
  - rewrite Hread. simpl. unfold add_ip. by rewrite Hfr.
  - rewrite Hread. simpl. unfold add_ip. by rewrite Hfr.
  - intros v Hpeek. rewrite Hread. simpl.
    replace (peek 0 vm1) with (Some v) by (by rewrite Hvm1).
    simpl. destruct (isFalsey v); [|done]. unfold add_ip. by rewrite Hfr.
  - intros delta. by rewrite Hvm1.
Qed.

Lemma jumps_move_ip_witness :
  exec OP_JUMP_IF_FALSE 0 (fetched_vm 1 [jump_sample])
  = Some (Next 0 (set_frames {[0 := mkFrame 0 262 0]}
                             (fetched_vm 1 [jump_sample]))).
Proof.
  edestruct (jumps_move_ip 0 (fetched_vm 1 [jump_sample])
               (set_frames {[0 := mkFrame 0 4 0]} (fetched_vm 1 [jump_sample]))
               258 (mkFrame 0 4 0)) as (_ & _ & Hif & _); [evaluated ..|].
  rewrite (Hif (BOOL_VAL false)) by evaluated. evaluated.
Defined.

(** ** Who writes the globals and the output stream *)

Lemma BINARY_OP_outcome {A} (valueType : A → Value) op frame vm outcome :
  BINARY_OP valueType op frame vm = Some outcome →
  globals (outcome_vm outcome) = globals vm ∧
  stdout (outcome_vm outcome) = stdout vm.
Proof.
  destruct outcome as [frame' vm'|r vm']; intros H.
  - by apply BINARY_OP_next in H as (_ & ? & ->).
  - apply BINARY_OP_return in H as [_ Herr]. by shapes.
Qed.

(** X12: the globals table is written by [OP_DEFINE_GLOBAL] and
    [OP_SET_GLOBAL] only: whatever any other instruction does, error or not,
    calls of natives included, the globals are afterwards what they were.
    This is said of the instructions whose behaviour is defined: a push
    with the stack top at [STACK_MAX] is not. *)
Theorem only_global_instructions_write_globals (instruction : OpCode)
    (frame : Z) (vm : VM) (outcome : Outcome) :
  instruction ≠ OP_DEFINE_GLOBAL →
  instruction ≠ OP_SET_GLOBAL →
  exec instruction frame vm = Some outcome →
  globals (outcome_vm outcome) = globals vm.
Proof.
  intros Hdefine Hset H.
  destruct instruction; try done;
    try (by apply BINARY_OP_outcome in H as [? _]);
    simpl in H; unbind H; try done; shapes;
    try (injection H as <-; done).
  all: callValue_cases as [[_ (? & _ & ?)]|[(_ & _ & ? & _ & ->)|(_ & ? & ? & _ & _ & ?)]];
    shapes; by injection H as <-.
Qed.

Lemma only_global_instructions_write_globals_witness :
  ∃ outcome, exec OP_CALL 0 (fetched_vm 1 call_clock) = Some outcome ∧
             globals (outcome_vm outcome) = globals (fetched_vm 1 call_clock).
Proof.
  eexists. split; [evaluated|].
  apply (only_global_instructions_write_globals OP_CALL 0
           (fetched_vm 1 call_clock)); [done | done | evaluated].
Defined.

(** X13: the output stream is written by [OP_PRINT] only, which appends the
    value on top of the stack; every other instruction leaves it as it
    was. *)
Theorem only_print_writes_stdout (instruction : OpCode) (frame : Z) (vm : VM)
    (outcome : Outcome) :
  exec instruction frame vm = Some outcome →
  (instruction ≠ OP_PRINT → stdout (outcome_vm outcome) = stdout vm) ∧
  (instruction = OP_PRINT →
   ∃ v, peek 0 vm = Some v ∧
        stdout (outcome_vm outcome) = stdout vm ++ [v] ∧
        stackTop (outcome_vm outcome) = stackTop vm - 1).
Proof.
  intros H. split.
  - intros Hprint.
    destruct instruction; try done;
      try (by apply BINARY_OP_outcome in H as [_ ?]);
      simpl in H; unbind H; try done; shapes;
      try (injection H as <-; done).
    all: callValue_cases as [[_ (? & _ & ?)]|[(_ & _ & ? & _ & ->)|(_ & ? & ? & _ & _ & ?)]];
      shapes; by injection H as <-.
  - intros ->. simpl in H.
    destruct (pop vm) as [[v vm1]|] eqn:Epop; simpl in H; [|done].
    apply pop_shape in Epop as (Htop & Hv & ->). injection H as <-.
    exists v. simpl. split; [|done]. apply peek_shape.
    by replace (stackTop vm - 1 - 0) with (stackTop vm - 1) by lia.
Qed.

Lemma only_print_writes_stdout_witness :
  ∃ outcome, exec OP_PRINT 0 (fetched_vm 3 [print_sum]) = Some outcome ∧
             stdout (outcome_vm outcome) = [NUMBER_VAL 3].
Proof.
  eexists. split; [evaluated|].
  edestruct (only_print_writes_stdout OP_PRINT 0 (fetched_vm 3 [print_sum]))
    as [_ Hprint]; [evaluated|].
  destruct (Hprint eq_refl) as (v & Hv & Hout & _).
  rewrite Hout. vm_compute in Hv. injection Hv as <-. evaluated.
Defined.

(** X14: [OP_SET_GLOBAL] on a name that is bound replaces its value by the
    top of the stack without popping it, binds no new name, and a later
    [OP_GET_GLOBAL] of that name pushes the value assigned: it goes on with
    the machine [push] leaves for that value. *)
Theorem assigned_global_is_read_back (frame : Z) (vm vm1 : VM) (name : string)
    (v old : Value) :
  READ_STRING frame vm = Some (name, vm1) →
  peek 0 vm = Some v →
  globals vm !! name = Some old →
  ∃ vm',
    exec OP_SET_GLOBAL frame vm = Some (Next frame vm') ∧
    globals vm' = <[name := v]> (globals vm) ∧
    dom (globals vm') = dom (globals vm) ∧
    stackTop vm' = stackTop vm ∧
    peek 0 vm' = Some v ∧
    ∀ frame2 vm2 vm3,
      globals vm2 = globals vm' →
      READ_STRING frame2 vm2 = Some (name, vm3) →
      exec OP_GET_GLOBAL frame2 vm2 = Next frame2 <$> push v vm3 ∧
      (0 ≤ stackTop vm2 < STACK_MAX →
       ∃ vm4, exec OP_GET_GLOBAL frame2 vm2 = Some (Next frame2 vm4) ∧
              peek 0 vm4 = Some v ∧
              stackTop vm4 = stackTop vm2 + 1).
Proof.
  intros Hread Hpeek Hbound.
  destruct (READ_STRING_frames _ _ _ _ Hread) as [fs ->].
  eexists. split.
  { simpl. rewrite Hread. simpl. rewrite peek_set_frames, Hpeek. simpl.
    rewrite bool_decide_eq_false_2; [reflexivity|].
    rewrite Hbound. done. }
  simpl. split; [done|]. split.
  { rewrite dom_insert_L. apply subseteq_union_1_L, singleton_subseteq_l.
    by apply elem_of_dom_2 with old. }
  split; [done|]. split; [exact Hpeek|].
  intros frame2 vm2 vm3 Hglobals Hread2.
  destruct (READ_STRING_frames _ _ _ _ Hread2) as [fs2 ->].
  simpl. rewrite Hread2. simpl. unfold tableGet. rewrite Hglobals. simpl.
  rewrite lookup_insert_eq. split; [by destruct (push v _)|].
  intros Htop. rewrite push_Some by done. simpl.
  eexists. split; [reflexivity|]. split; [|done].
  apply peek_shape. simpl.
  replace (stackTop vm2 + 1 - 1 - 0) with (stackTop vm2) by lia.
  split; [done|]. apply lookup_insert_eq.
Qed.

Lemma assigned_global_is_read_back_witness :
  ∃ vm', exec OP_SET_GLOBAL 0 (fetched_vm 1 [assign_clock]) = Some (Next 0 vm') ∧
         globals vm' !! "clock" = Some (NUMBER_VAL 1) ∧
         stackTop vm' = 2.
Proof.
  edestruct (assigned_global_is_read_back 0 (fetched_vm 1 [assign_clock])
               (operand_read 0 (fetched_vm 1 [assign_clock]))
               "clock" (NUMBER_VAL 1))
    as (vm' & Hexec & Hglobals & _ & Htop & _); [evaluated ..|].
  exists vm'. split; [exact Hexec|]. split.
  - rewrite Hglobals. apply lookup_insert_eq.
  - rewrite Htop. evaluated.
Defined.

(** ** Closing upvalues *)

(** X15: [closeUpvalues] looks at the head of the open-upvalue list only:
    when the list is empty, or its head points below [last], the machine is
    left exactly as it was, whatever follows the head. *)
Theorem closeUpvalues_nothing_to_close (last : Z) (vm : VM) :
  (openUpvalues vm = [] → closeUpvalues last vm = Some vm) ∧
  (∀ u next o a,
     openUpvalues vm = u :: next →
     objUpvalues vm !! u = Some o →
     location o = StackPtr a →
     a < last →
     closeUpvalues last vm = Some vm).
Proof.
  unfold closeUpvalues. split.
  - intros Hopen. rewrite Hopen. simpl. f_equal. rewrite <- Hopen.
    by destruct vm.
  - intros u next o a Hopen Ho Hloc Hlt. rewrite Hopen. simpl.
    rewrite Ho. simpl. rewrite Hloc. simpl.
    rewrite bool_decide_eq_false_2 by lia. f_equal. rewrite <- Hopen.
    by destruct vm.
Qed.

Lemma closeUpvalues_nothing_to_close_witness :
  closeUpvalues 3 (fetched_vm 7 counter) = Some (fetched_vm 7 counter).
Proof.
  apply (proj2 (closeUpvalues_nothing_to_close 3 (fetched_vm 7 counter))
           0%nat [] (mkUpvalue (StackPtr 2) NIL_VAL) 2); [evaluated .. | lia].
Defined.

(** X16: closing does not change what is read through an upvalue.  On a
    machine whose open-upvalue list is in order, the slots at or above
    [last] being cells of the stack that hold a value, after [closeUpvalues]
    every upvalue that points into the stack or at its own [closed] field
    yields the value it yielded before, and the upvalues that were closed go
    on yielding it whatever is stored in the operand stack afterwards. *)
Theorem closing_keeps_the_value_seen (last : Z) (vm : VM) (addrs : list Z) :
  pointsTo (objUpvalues vm) (openUpvalues vm) addrs →
  descending addrs →
  (∀ a, a ∈ addrs → last ≤ a → is_Some (load (StackPtr a) vm)) →
  ∃ vm',
    closeUpvalues last vm = Some vm' ∧
    (∀ u o,
       objUpvalues vm !! u = Some o →
       location o = ClosedPtr u ∨ (∃ a, location o = StackPtr a) →
       deref u vm' = deref u vm) ∧
    (∀ u a cells,
       u ∈ openUpvalues vm → openSlot (objUpvalues vm) u = Some a → last ≤ a →
       deref u (set_stack cells vm') = load (StackPtr a) vm).
Proof.
  intros Hpts Hdesc Hreadable.
  destruct (closeUpvalues_spec last vm addrs Hpts Hdesc Hreadable)
    as (objs' & Hclose & Hclosed & Hkept & _).
  eexists. split; [exact Hclose|]. split.
  - intros u o Ho Hwf.
    assert (Hcases :
              (u ∈ openUpvalues vm ∧
               ∃ a, openSlot (objUpvalues vm) u = Some a ∧ last ≤ a) ∨
              ¬ (u ∈ openUpvalues vm ∧
                 ∃ a, openSlot (objUpvalues vm) u = Some a ∧ last ≤ a)).
    { destruct (decide (u ∈ openUpvalues vm)) as [Hin|Hout]; [|right; tauto].
      destruct (openSlot (objUpvalues vm) u) as [a|] eqn:Hu.
      - destruct (decide (last ≤ a)); [left; eauto|].
        right. intros (_ & b & [= <-] & ?). lia.
      - right. intros (_ & b & [=] & _). }
    destruct Hcases as [(Hin & a & Hu & Hle)|Hnot].
    + destruct (Hclosed u a Hin Hu Hle) as (v & Hv & Hobj).
      unfold deref. simpl. rewrite Hobj, Ho. simpl.
      unfold load at 1. simpl. rewrite Hobj. simpl.
      unfold openSlot in Hu. rewrite Ho in Hu. simpl in Hu.
      destruct (location o); [|done]. injection Hu as ->. by rewrite Hv.
    + unfold deref. simpl. rewrite (Hkept u Hnot), Ho. simpl.
      destruct Hwf as [Hown|[a Hopen]].
      * rewrite Hown. unfold load. simpl. by rewrite (Hkept u Hnot).
      * by rewrite Hopen.
  - intros u a cells Hin Hu Hle.
    destruct (Hclosed u a Hin Hu Hle) as (v & Hv & Hobj).
    unfold deref. simpl. rewrite Hobj. simpl.
    unfold load at 1. simpl. by rewrite Hobj, Hv.
Qed.

Lemma closing_keeps_the_value_seen_witness :
  ∃ vm', closeUpvalues 1 (fetched_vm 7 counter) = Some vm' ∧
         deref 0 vm' = deref 0 (fetched_vm 7 counter).
Proof.
  destruct (closing_keeps_the_value_seen 1 (fetched_vm 7 counter) [2])
    as (vm' & Hclose & Hsame & _).
  - vm_compute. repeat constructor.
  - simpl. split; constructor.
  - intros a ->%list_elem_of_singleton _. vm_compute. eauto.
  - exists vm'. split; [exact Hclose|].
    apply (Hsame 0%nat (mkUpvalue (StackPtr 2) NIL_VAL)); [evaluated|].
    right. by exists 2.
Defined.

(** ** Start-up *)

Ltac reduce :=
  cbn [mbind option_bind fmap option_fmap option_map mjoin option_join
       fst snd AS_STRING
       frames frameCount stack stackTop globals openUpvalues objFunctions
       objNatives objClosures objUpvalues stdout stderr
       set_frames set_frameCount set_stack set_stackTop set_globals
       set_openUpvalues set_objNatives set_objClosures set_objUpvalues
       set_stdout set_stderr].

Ltac in_stack := rewrite STACK_MAX_cells; reduce; lia.

Lemma defineNative_on_empty_stack name function vm :
  stackTop vm = 0 →
  ∃ cells,
    defineNative name function vm =
      Some (set_globals
              (<[name := OBJ_VAL (OBJ_NATIVE (length (objNatives vm)))]> (globals vm))
              (set_objNatives (objNatives vm ++ [function])
                 (set_stack cells vm))).
Proof.
  intros Htop. unfold defineNative, newNative, tableSet.
  rewrite push_Some by in_stack. reduce.
  rewrite push_Some by in_stack. reduce.
  rewrite !load_cell by in_stack. reduce.
  rewrite Htop.
  change (0 + 1 + 1) with 2. change (0 + 1) with 1.
  rewrite (lookup_insert_ne _ 1 0) by lia. rewrite (lookup_insert_eq _ 0).
  reduce. rewrite !(lookup_insert_eq _ 1). reduce.
  unfold pop. reduce. rewrite load_cell by in_stack. reduce.
  change (2 - 1) with 1. rewrite !(lookup_insert_eq _ 1). reduce.
  rewrite load_cell by in_stack. reduce.
  change (1 - 1) with 0.
  rewrite (lookup_insert_ne _ 1 0) by lia. rewrite (lookup_insert_eq _ 0).
  reduce. eexists. f_equal.
  unfold set_globals, set_objNatives, set_stack. reduce.
  rewrite <- Htop. by destruct vm.
Qed.

(** X17: [defineNative] reads the name and the native back from the two
    bottom slots of the operand stack.  On an empty stack it binds the name
    to a new native object holding the host function and leaves the stack
    empty; called with a string already in the bottom slot, it binds that
    string instead, to the name. *)
Theorem defineNative_reads_the_bottom_slots (name : string)
    (function : NativeFn) (vm : VM) :
  (stackTop vm = 0 →
   ∃ vm', defineNative name function vm = Some vm' ∧
          globals vm' =
            <[name := OBJ_VAL (OBJ_NATIVE (length (objNatives vm)))]> (globals vm) ∧
          objNatives vm' !! length (objNatives vm) = Some function ∧
          stackTop vm' = 0) ∧
  (∀ other,
     stackTop vm = 1 →
     stack vm !! 0 = Some (OBJ_VAL (OBJ_STRING other)) →
     ∃ vm', defineNative name function vm = Some vm' ∧
            globals vm' = <[other := OBJ_VAL (OBJ_STRING name)]> (globals vm) ∧
            stackTop vm' = 1).
Proof.
  split.
  - intros Htop.
    destruct (defineNative_on_empty_stack name function vm Htop) as [cells ->].
    eexists. split; [reflexivity|]. reduce. split; [done|]. split; [|done].
    by rewrite lookup_app_r, Nat.sub_diag.
  - intros other Htop Hbottom.
    unfold defineNative, newNative, tableSet.
    rewrite push_Some by in_stack. reduce.
    rewrite push_Some by in_stack. reduce.
    rewrite !load_cell by in_stack. reduce.
    rewrite Htop.
    change (1 + 1 + 1) with 3. change (1 + 1) with 2.
    rewrite (lookup_insert_ne _ 2 0) by lia.
    rewrite (lookup_insert_ne _ 1 0) by lia. rewrite Hbottom. reduce.
    rewrite (lookup_insert_ne _ 2 1) by lia. rewrite (lookup_insert_eq _ 1).
    reduce.
    unfold pop. reduce. rewrite load_cell by in_stack. reduce.
    change (3 - 1) with 2. rewrite (lookup_insert_eq _ 2). reduce.
    rewrite load_cell by in_stack. reduce.
    change (2 - 1) with 1.
    rewrite (lookup_insert_ne _ 2 1) by lia. rewrite (lookup_insert_eq _ 1).
    reduce. eexists. split; [reflexivity|]. reduce. by split.
Qed.

Lemma defineNative_reads_the_bottom_slots_witness :
  ∃ vm', defineNative "now" (clockNative 1) (blankVM []) = Some vm' ∧
         globals vm' = {["now" := OBJ_VAL (OBJ_NATIVE 0)]}.
Proof.
  destruct (proj1 (defineNative_reads_the_bottom_slots "now" (clockNative 1)
                     (blankVM [])) eq_refl) as (vm' & Hdef & Hglobals & _).
  exists vm'. split; [exact Hdef|]. rewrite Hglobals. reflexivity.
Defined.

(** X18: whatever the machine held, [initVM] leaves it with an empty operand
    stack, no frame, no open upvalue, and a globals table that binds "clock"
    and nothing else; calling the value bound to "clock" with no argument
    replaces it on the stack by the number the clock reads: the call is the
    push of that number with the stack top one cell down, which, the callee
    being in a cell of the stack, leaves the number on top. *)
Theorem initVM_defines_clock (now : float) (vm : VM) :
  ∃ vm' native,
    initVM now vm = Some vm' ∧
    stackTop vm' = 0 ∧ frameCount vm' = 0 ∧ openUpvalues vm' = [] ∧
    globals vm' = {["clock" := native]} ∧
    ∀ vm2,
      objNatives vm2 = objNatives vm' →
      callValue native 0 vm2 =
        pair true <$> push (NUMBER_VAL now) (set_stackTop (stackTop vm2 - 1) vm2) ∧
      (0 ≤ stackTop vm2 - 1 < STACK_MAX →
       ∃ vm3, callValue native 0 vm2 = Some (true, vm3) ∧
              peek 0 vm3 = Some (NUMBER_VAL now) ∧
              stackTop vm3 = stackTop vm2).
Proof.
  unfold initVM.
  destruct (defineNative_on_empty_stack "clock" (clockNative now)
              (set_globals ∅ (resetStack vm)) eq_refl) as [cells ->].
  eexists _, _. split; [reflexivity|]. reduce.
  do 3 (split; [reflexivity|]). split; [reflexivity|].
  intros vm2 Hnatives. unfold callValue. rewrite Hnatives. reduce.
  rewrite lookup_app_r by done. rewrite Nat.sub_diag.
  cbn [lookup list_lookup]. reduce.
  change (clockNative now 0 (stackTop vm2 - 0) (stack vm2)) with (NUMBER_VAL now).
  replace (stackTop vm2 - (0 + 1)) with (stackTop vm2 - 1) by lia.
  split; [by destruct (push _ _)|].
  intros Hslot. rewrite push_Some by (reduce; lia). reduce.
  eexists. split; [reflexivity|]. split; [|reduce; lia].
  apply peek_shape. reduce.
  replace (stackTop vm2 - 1 + 1 - 1 - 0) with (stackTop vm2 - 1) by lia.
  split; [done|]. apply lookup_insert_eq.
Qed.

(** ** A call and its return *)

(** X19: a call of a closure and the return from it cancel out on the frame
    stack and leave the result in place of the callee and its arguments:
    after [OP_RETURN] in the frame that [call] pushed, the frame count is
    what it was before the call, the stack top is [argCount] below what it
    was, and the top of the stack is the value returned. *)
Theorem call_then_return (closure : nat) (argCount : Z) (vm vm1 vm2 : VM)
    (result : Value) (ip' : Z) (outcome : Outcome) :
  call closure argCount vm = Some (true, vm1) →
  frameCount vm ≠ 0 →
  frameCount vm2 = frameCount vm1 →
  frames vm2 !! frameCount vm
    = Some (mkFrame closure ip' (stackTop vm - argCount - 1)) →
  peek 0 vm2 = Some result →
  exec OP_RETURN (frameCount vm) vm2 = Some outcome →
  ∃ vm3, outcome = Next (frameCount vm - 1) vm3 ∧
         frameCount vm3 = frameCount vm ∧
         stackTop vm3 = stackTop vm - argCount ∧
         peek 0 vm3 = Some result.
Proof.
  intros Hcall Hcaller Hcount Hframe Hpeek H.
  apply call_shape in Hcall as [[? _]|(_ & _ & ->)]; [done|].
  simpl in Hcount. simpl in H.
  rewrite (peek_0_pop _ _ Hpeek) in H. simpl in H.
  change (frames (set_stackTop (stackTop vm2 - 1) vm2)) with (frames vm2) in H.
  rewrite Hframe in H. simpl in H.
  destruct (closeUpvalues _ _) as [vm'|] eqn:Eclose; simpl in H; [|done].
  apply closeUpvalues_shape in Eclose as (chain & objs & -> & _).
  simpl in H. rewrite decide_False in H by lia.
  destruct (push _ _) as [vm3|] eqn:Epush; simpl in H; [|done].
  apply push_shape in Epush as [Hslots ->]. simpl in Hslots.
  injection H as <-. eexists. split; [f_equal; simpl; lia|]. simpl.
  split; [lia|]. split; [lia|].
  apply peek_shape. simpl.
  replace (stackTop vm - argCount - 1 + 1 - 1 - 0)
    with (stackTop vm - argCount - 1) by lia.
  split; [done|]. apply lookup_insert_eq.
Qed.

Lemma call_then_return_witness :
  ∃ vm3, exec OP_RETURN 1 (fetched_vm 7 counter) = Some (Next 0 vm3) ∧
         frameCount vm3 = 1 ∧ stackTop vm3 = 2.
Proof.
  edestruct (call_then_return 1 0 (operand_read 0 (fetched_vm 3 counter))
               (set_frameCount 2
                  (set_frames
                     (<[1 := mkFrame 1 0 1]>
                        (frames (operand_read 0 (fetched_vm 3 counter))))
                     (operand_read 0 (fetched_vm 3 counter))))
               (fetched_vm 7 counter) (OBJ_VAL (OBJ_CLOSURE 2)) 9)
    as (vm3 & Hout & Hcount & Htop & _);
    [evaluated | by vm_compute | evaluated .. |].
  exists vm3. split; [|split].
  - vm_compute in Hout. injection Hout as <-. evaluated.
  - rewrite Hcount. evaluated.
  - rewrite Htop. evaluated.
Defined.

(** ** Building a closure *)

Lemma READ_BYTE_step frame vm byte vm' :
  READ_BYTE frame vm = Some (byte, vm') →
  ∃ fr, frames vm !! frame = Some fr ∧
        vm' = set_frames (<[frame := mkFrame (closure fr) (ip fr + 1) (slots fr)]>
                            (frames vm)) vm.
Proof.
  unfold READ_BYTE. intros H. unbind H; try done. injection H as _ <-. eauto.
Qed.

(** The loop of [OP_CLOSURE] fills the upvalue array of [created] and reads
    two operand bytes per turn; it leaves the other closures, the function
    of [created], the length of its array and the operand stack alone. *)
Lemma fillUpvalues_closure count : ∀ i created frame vm vm' cl fr,
  fillUpvalues count i created frame vm = Some vm' →
  objClosures vm !! created = Some cl →
  frames vm !! frame = Some fr →
  ∃ cl',
    objClosures vm' !! created = Some cl' ∧
    function cl' = function cl ∧
    length (upvalues cl') = length (upvalues cl) ∧
    (∀ c, c ≠ created → objClosures vm' !! c = objClosures vm !! c) ∧
    frames vm' !! frame
      = Some (mkFrame (closure fr) (ip fr + 2 * Z.of_nat count) (slots fr)) ∧
    stack vm' = stack vm ∧ stackTop vm' = stackTop vm ∧
    globals vm' = globals vm ∧ frameCount vm' = frameCount vm.
Proof.
  induction count as [|count IH]; intros i created frame vm vm' cl fr H Hcl Hfr.
  - simpl in H. injection H as <-. exists cl. repeat split; try done.
    rewrite Hfr. destruct fr; simpl. do 2 f_equal. lia.
  - cbn [fillUpvalues] in H.
    destruct (READ_BYTE frame vm) as [[isLocal vm1]|] eqn:E1; simpl in H; [|done].
    destruct (READ_BYTE frame vm1) as [[idx vm2]|] eqn:E2; simpl in H; [|done].
    apply READ_BYTE_step in E1 as (fr1 & Hfr1 & ->).
    rewrite Hfr in Hfr1. injection Hfr1 as <-.
    apply READ_BYTE_step in E2 as (fr2 & Hfr2 & ->).
    simpl in Hfr2. rewrite lookup_insert_eq in Hfr2. injection Hfr2 as <-.
    simpl in H. rewrite lookup_insert_eq in H. simpl in H.
    match type of H with
    | context [mbind _ ?m] => destruct m as [[captured vm3]|] eqn:E3; simpl in H
    end; [|done].
    match type of E3 with
    | context [captureUpvalue _ ?x] => set (vm2 := x) in *
    end.
    assert (∃ chain objs,
              vm3 = set_openUpvalues chain (set_objUpvalues objs vm2))
      as (chain & objs & ->).
    { case_decide.
      - unbind E3; try done. apply captureUpvalue_shape in E as (? & ? & ->).
        injection E3 as _ <-. eauto.
      - unbind E3; try done. injection E3 as _ <-.
        exists (openUpvalues vm2), (objUpvalues vm2). by destruct vm2. }
    clear E3. simpl in H. rewrite Hcl in H. simpl in H.
    destruct (decide (i < length (upvalues cl))%nat) as [Hi|]; simpl in H;
      [|done].
    destruct (IH _ _ _ _ _
                (mkClosure (function cl) (<[i := captured]> (upvalues cl)))
                (mkFrame (closure fr) (ip fr + 1 + 1) (slots fr)) H)
      as (cl' & Hcl' & Hfun & Hlen & Hothers & Hframe & Hrest).
    { simpl. apply list_lookup_insert_eq. by eapply lookup_lt_Some. }
    { simpl. apply lookup_insert_eq. }
    exists cl'. split; [exact Hcl'|]. split; [exact Hfun|].
    split; [simpl in Hlen; by rewrite length_insert in Hlen|].
    split.
    { intros c Hc. rewrite (Hothers c Hc). simpl.
      by rewrite list_lookup_insert_ne. }
    split; [|exact Hrest].
    rewrite Hframe. simpl. do 2 f_equal. lia.
Qed.

(** [READ_CONSTANT] reads the byte at [ip] and yields the constant of the
    running function at that index. *)
Lemma READ_CONSTANT_step frame vm fr constant vm' :
  frames vm !! frame = Some fr →
  READ_CONSTANT frame vm = Some (constant, vm') →
  ∃ enclosing byte,
    frameFunction fr vm = Some enclosing ∧
    index (code (chunk enclosing)) (ip fr) = Some byte ∧
    index (constants (chunk enclosing)) byte = Some constant ∧
    vm' = set_frames (<[frame := mkFrame (closure fr) (ip fr + 1) (slots fr)]>
                        (frames vm)) vm.
Proof.
  intros Hfr H. unfold READ_CONSTANT, READ_BYTE in H. rewrite Hfr in H.
  reduce_in H.
  destruct (frameFunction fr vm) as [enclosing|] eqn:Efn; reduce_in H; [|done].
  destruct (index (code (chunk enclosing)) (ip fr)) as [byte|] eqn:Ebyte;
    reduce_in H; [|done].
  cbn [frames set_frames] in H. rewrite lookup_insert_eq in H. reduce_in H.
  change (frameFunction _ _) with (frameFunction fr vm) in H.
  rewrite Efn in H. reduce_in H.
  destruct (index (constants (chunk enclosing)) byte) as [c|] eqn:Ec;
    reduce_in H; [|done].
  injection H as <- <-. by exists enclosing, byte.
Qed.

(** X20: [OP_CLOSURE] never fails with an error.  Its operand is the index,
    among the constants of the running function, of a function; the
    instruction allocates a new closure of that function, with as many
    upvalue slots as the function declares, pushes it, and reads two more
    operand bytes per upvalue; the closures that existed are left as they
    were. *)
Theorem closure_instruction_builds_closure (frame : Z) (vm : VM)
    (fr : CallFrame) (outcome : Outcome) :
  frames vm !! frame = Some fr →
  exec OP_CLOSURE frame vm = Some outcome →
  ∃ enclosing operand f fn vm' cl,
    frameFunction fr vm = Some enclosing ∧
    index (code (chunk enclosing)) (ip fr) = Some operand ∧
    index (constants (chunk enclosing)) operand = Some (OBJ_VAL (OBJ_FUNCTION f)) ∧
    objFunctions vm !! f = Some fn ∧
    outcome = Next frame vm' ∧
    objClosures vm' !! length (objClosures vm) = Some cl ∧
    function cl = f ∧
    length (upvalues cl) = Z.to_nat (upvalueCount fn) ∧
    (∀ c, (c < length (objClosures vm))%nat →
          objClosures vm' !! c = objClosures vm !! c) ∧
    peek 0 vm' = Some (OBJ_VAL (OBJ_CLOSURE (length (objClosures vm)))) ∧
    stackTop vm' = stackTop vm + 1 ∧
    frames vm' !! frame =
      Some (mkFrame (closure fr)
              (ip fr + 1 + 2 * Z.of_nat (Z.to_nat (upvalueCount fn)))
              (slots fr)).
Proof.
  intros Hfr H. simpl in H.
  destruct (READ_CONSTANT frame vm) as [[constant vm1]|] eqn:E1; simpl in H;
    [|done].
  destruct (READ_CONSTANT_step _ _ _ _ _ Hfr E1)
    as (enclosing & operand & Henclosing & Hoperand & Hconstant & ->).
  clear E1.
  destruct (AS_FUNCTION constant) as [f|] eqn:Ef; simpl in H; [|done].
  assert (constant = OBJ_VAL (OBJ_FUNCTION f)) as ->
    by (by destruct constant as [| | |[]]; simplify_eq/=).
  destruct (newClosure f _) as [[created vm2]|] eqn:E2; simpl in H; [|done].
  apply newClosure_shape in E2 as (fn & Hfn & -> & ->). simpl in *.
  destruct (push _ _) as [vm3|] eqn:E3; simpl in H; [|done].
  apply push_shape in E3 as [Htop ->]. simpl in *.
  rewrite lookup_app_r in H by done. rewrite Nat.sub_diag in H. simpl in H.
  rewrite length_replicate in H.
  destruct (fillUpvalues _ _ _ _ _) as [vm4|] eqn:E4; simpl in H; [|done].
  injection H as <-.
  destruct (fillUpvalues_closure _ _ _ _ _ _
              (mkClosure f (replicate (Z.to_nat (upvalueCount fn)) None))
              (mkFrame (closure fr) (ip fr + 1) (slots fr)) E4)
    as (cl' & Hcl' & Hfun & Hlen & Hothers & Hframe & Hstack & Htop' & _).
  { simpl. by rewrite lookup_app_r, Nat.sub_diag. }
  { simpl. apply lookup_insert_eq. }
  exists enclosing, operand, f, fn, vm4, cl'.
  do 3 (split; [done|]). split; [exact Hfn|]. split; [done|].
  split; [exact Hcl'|]. split; [exact Hfun|].
  split; [simpl in Hlen; by rewrite length_replicate in Hlen|].
  split.
  { intros c Hc. rewrite Hothers by lia. simpl. by apply lookup_app_l. }
  split.
  { apply peek_shape. rewrite Hstack, Htop'. simpl.
    replace (stackTop vm + 1 - 1 - 0) with (stackTop vm) by lia.
    split; [done|]. apply lookup_insert_eq. }
  split; [by rewrite Htop'|].
  rewrite Hframe. simpl. reflexivity.
Qed.

Lemma closure_instruction_builds_closure_witness :
  ∃ vm', exec OP_CLOSURE 1 (fetched_vm 5 counter) = Some (Next 1 vm') ∧
         objClosures vm' !! 2%nat = Some (mkClosure 2 [Some 0%nat]).
Proof.
  edestruct (closure_instruction_builds_closure 1 (fetched_vm 5 counter)
               (mkFrame 1 3 1))
    as (enclosing & operand & f & fn & vm' & cl & _ & _ & _ & _ & Hout & _);
    [evaluated ..|].
  vm_compute in Hout. injection Hout as <-.
  eexists. split; evaluated.
Defined.

(** ** Entering the script *)

(** X21: [interpret] returns [INTERPRET_COMPILE_ERROR] at once when the
    compiler gave no function.  Otherwise, with room for one more frame and
    for one more value, and a function of arity 0, it wraps the function in
    a new closure, leaves that closure in the slot at the stack top, and
    runs it in a new topmost frame whose window starts at that slot and
    whose [ip] is at the start of the code. *)
Theorem interpret_enters_the_script (fuel : nat) (vm : VM) :
  interpret fuel None vm = Exited INTERPRET_COMPILE_ERROR vm ∧
  ∀ f fn,
    objFunctions vm !! f = Some fn →
    arity fn = 0 →
    frameCount vm ≠ FRAMES_MAX →
    0 ≤ stackTop vm < STACK_MAX →
    ∃ vm1,
      interpret fuel (Some f) vm = run_loop fuel (frameCount vm) vm1 ∧
      frameCount vm1 = frameCount vm + 1 ∧
      frames vm1 !! frameCount vm
        = Some (mkFrame (length (objClosures vm)) 0 (stackTop vm)) ∧
      objClosures vm1 !! length (objClosures vm)
        = Some (mkClosure f (replicate (Z.to_nat (upvalueCount fn)) None)) ∧
      stackTop vm1 = stackTop vm + 1 ∧
      stack vm1 !! stackTop vm
        = Some (OBJ_VAL (OBJ_CLOSURE (length (objClosures vm)))) ∧
      globals vm1 = globals vm.
Proof.
  split; [reflexivity|]. intros f fn Hfn Harity Hroom Htop.
  unfold interpret. rewrite push_Some by done. reduce.
  unfold newClosure. reduce. rewrite Hfn. reduce.
  unfold pop. reduce.
  replace (stackTop vm + 1 - 1) with (stackTop vm) by lia.
  rewrite load_cell by done. reduce.
  rewrite lookup_insert_eq. reduce.
  rewrite push_Some by done. reduce.
  unfold call. reduce.
  rewrite lookup_app_r by done. rewrite Nat.sub_diag.
  cbn [lookup list_lookup]. reduce. cbn [function]. rewrite Hfn. reduce.
  rewrite decide_False by (intros Hne; apply Hne; by rewrite Harity).
  rewrite decide_False by exact Hroom.
  unfold run. reduce.
  eexists. split.
  { replace (frameCount vm + 1 - 1) with (frameCount vm) by lia. reflexivity. }
  reduce. split; [done|]. split.
  { rewrite lookup_insert_eq. do 2 f_equal. lia. }
  split; [by rewrite lookup_app_r, Nat.sub_diag|].
  split; [done|]. split; [apply lookup_insert_eq | done].
Qed.

Lemma interpret_enters_the_script_witness :
  ∃ vm1, interpret 10 (Some 0%nat) (started [print_sum]) = run_loop 10 0 vm1 ∧
         frames vm1 !! 0 = Some (mkFrame 0 0 0) ∧
         stackTop vm1 = 1.
Proof.
  destruct (proj2 (interpret_enters_the_script 10 (started [print_sum]))
              0%nat print_sum)
    as (vm1 & Hrun & _ & Hframe & _ & Htop & _);
    [evaluated | evaluated | by vm_compute | in_range |].
  exists vm1. split; [exact Hrun|]. split; [exact Hframe | exact Htop].
Defined.

(** ** Variables *)

(** X22: [OP_SET_UPVALUE] writes through the upvalue: while the upvalue is
    open, on a slot of the stack, the value lands in that slot, so the
    enclosing function sees it in its local; once closed, in the upvalue's
    own field.  Either way the value is what is read through the upvalue
    afterwards, and nothing is popped. *)
Theorem upvalue_assignment_writes_through (frame : Z) (vm vm1 : VM)
    (slot : Z) (fr : CallFrame) (cl : ObjClosure) (u : nat) (o : ObjUpvalue)
    (v : Value) :
  READ_BYTE frame vm = Some (slot, vm1) →
  frames vm1 !! frame = Some fr →
  objClosures vm !! closure fr = Some cl →
  index (upvalues cl) slot = Some (Some u) →
  objUpvalues vm !! u = Some o →
  location o = ClosedPtr u ∨
    (∃ a, location o = StackPtr a ∧ 0 ≤ a < STACK_MAX) →
  peek 0 vm = Some v →
  ∃ vm',
    exec OP_SET_UPVALUE frame vm = Some (Next frame vm') ∧
    deref u vm' = Some v ∧
    (∀ a, location o = StackPtr a → stack vm' !! a = Some v) ∧
    stackTop vm' = stackTop vm ∧
    openUpvalues vm' = openUpvalues vm.
Proof.
  intros Hread Hfr Hcl Hslot Ho Hwf Hpeek.
  destruct (READ_BYTE_frames _ _ _ _ Hread) as [fs ->].
  simpl. rewrite Hread. simpl. simpl in Hfr. rewrite Hfr. simpl.
  rewrite Hcl. simpl. rewrite Hslot. simpl. rewrite Ho. simpl.
  rewrite peek_set_frames, Hpeek. simpl.
  destruct Hwf as [Hown|(a & Hopen & Ha)].
  - rewrite Hown. unfold store. simpl. rewrite Ho. simpl.
    eexists. split; [reflexivity|]. unfold deref. simpl.
    rewrite list_lookup_insert_eq by (by eapply lookup_lt_Some). simpl.
    rewrite Hown. unfold load. simpl.
    rewrite list_lookup_insert_eq by (by eapply lookup_lt_Some). simpl.
    split; [done|]. split; [|done]. by intros a Ha.
  - rewrite Hopen. rewrite store_stack by done. simpl.
    eexists. split; [reflexivity|]. unfold deref. simpl. rewrite Ho. simpl.
    rewrite Hopen. rewrite load_cell by done. simpl. rewrite lookup_insert_eq.
    split; [done|]. split; [|done]. intros b Hb.
    injection Hb as <-. apply lookup_insert_eq.
Qed.

Lemma upvalue_assignment_writes_through_witness :
  ∃ vm', exec OP_SET_UPVALUE 1 (fetched_vm 14 counter) = Some (Next 1 vm') ∧
         deref 0 vm' = Some (NUMBER_VAL 1).
Proof.
  edestruct (upvalue_assignment_writes_through 1 (fetched_vm 14 counter)
               (operand_read 1 (fetched_vm 14 counter)) 0 (mkFrame 2 7 1)
               (mkClosure 2 [Some 0%nat]) 0
               (mkUpvalue (ClosedPtr 0) (NUMBER_VAL 0)) (NUMBER_VAL 1))
    as (vm' & Hexec & Hderef & _); [evaluated .. | by left | evaluated |].
  exists vm'. split; [exact Hexec | exact Hderef].
Defined.
